(** * MaskFormer feature extractor: resizing, batch packing, panoptic merging

    A shallow embedding of
    [src/transformers/models/maskformer/feature_extraction_maskformer.py]
    and the properties of its natural-language specification.

    Conventions of the embedding.
    - Python integers are [Z]; indices of queries and classes, which the
      source only obtains from [range], [enumerate] and [argmax], are [nat].
    - Python floats are exact rationals [Q]. The source compares, multiplies
      and divides them; it never relies on a rounding error, and all the
      concrete evaluations below use values on which IEEE double arithmetic
      and exact arithmetic give the same integers.
    - A raised exception is the [Raise] case of [result]; code that can raise
      is written in the error monad with [let*].
    - torch tensors are nested lists, outermost axis first; a numpy array
      whose [shape] the source reads is an [ndarray], the nested list with
      its shape.
    - The dictionary [stuff_memory_list] is a [gmap]. *)

From Stdlib Require Import ZArith QArith Qround List String Bool Lia Lqa.
From stdpp Require Import base strings gmap.
Import ListNotations.

Local Open Scope Z_scope.

(** ** Exceptions and the error monad *)

Inductive exn : Type :=
| ValueError (msg : string)
| TypeError (msg : string)
| IndexError
| KeyError
| ZeroDivisionError
| ImportError (msg : string)
| OtherError (msg : string).

Inductive result (A : Type) : Type :=
| Ok (a : A)
| Raise (e : exn).

Arguments Ok {A} a.
Arguments Raise {A} e.

Definition bind {A B : Type} (c : result A) (k : A -> result B) : result B :=
  match c with
  | Ok a => k a
  | Raise e => Raise e
  end.

Notation "'let*' x ':=' c 'in' k" := (bind c (fun x => k))
  (at level 10, x pattern, c at level 100, k at level 200).

(** [for x in xs: acc = body(acc, x)], stopping at the first exception. *)
Fixpoint foldM {A S : Type} (body : S -> A -> result S) (xs : list A) (s : S)
  : result S :=
  match xs with
  | [] => Ok s
  | x :: xs' => let* s' := body s x in foldM body xs' s'
  end.

(** [[f(x) for x in xs]], stopping at the first exception. *)
Fixpoint mapM {A B : Type} (f : A -> result B) (xs : list A) : result (list B) :=
  match xs with
  | [] => Ok []
  | x :: xs' => let* y := f x in let* ys := mapM f xs' in Ok (y :: ys)
  end.

(** ** Python numerics *)

Definition Qlt_bool (x y : Q) : bool := negb (Qle_bool y x).

(** [a / b] on floats. *)
Definition py_truediv (a b : Q) : result Q :=
  if Qeq_bool b 0 then Raise ZeroDivisionError else Ok (a / b)%Q.

(** [round(x)] with one argument: nearest integer, a tie goes to the even one. *)
Definition py_round (x : Q) : Z :=
  let f := Qfloor x in
  match (x - inject_Z f ?= 1 # 2)%Q with
  | Lt => f
  | Gt => f + 1
  | Eq => if Z.even f then f else f + 1
  end.

(** [int(x)] on a float: truncation towards zero. *)
Definition py_int (x : Q) : Z := Z.quot (Qnum x) (Zpos (Qden x)).

(** ** Resizer: [_resize] and its local functions *)

Module Resizer.

(** The test of line 105, [max_original_size / min_original_size * size > max_size]. *)
Definition cap_applies (width height size max_size : Z) : Prop :=
  (inject_Z max_size
   < inject_Z (Z.max width height) / inject_Z (Z.min width height) * inject_Z size)%Q.

Definition get_size_with_aspect_ratio
    (image_size : Z * Z) (size : Z) (max_size : option Z) : result (Z * Z) :=
  let '(width, height) := image_size in
  let* size :=
    match max_size with
    | Some max_size =>
        let min_original_size := inject_Z (Z.min width height) in
        let max_original_size := inject_Z (Z.max width height) in
        let* ratio := py_truediv max_original_size min_original_size in
        if Qlt_bool (inject_Z max_size) (ratio * inject_Z size)%Q then
          let* scaled :=
            py_truediv (inject_Z max_size * min_original_size)%Q max_original_size in
          Ok (py_round scaled)
        else Ok size
    | None => Ok size
    end in
  if (width <=? height) && (width =? size) || (height <=? width) && (height =? size)
  then Ok (height, width)
  else if width <? height then
    let ow := size in
    let* q := py_truediv (inject_Z (size * height)) (inject_Z width) in
    Ok (py_int q, ow)
  else
    let oh := size in
    let* q := py_truediv (inject_Z (size * width)) (inject_Z height) in
    Ok (oh, py_int q).

(** The [size] argument: an int, or a list or tuple taken verbatim. *)
Inductive size_arg : Type :=
| SizeInt (s : Z)
| SizePair (wh : Z * Z).

Definition get_size (image_size : Z * Z) (size : size_arg) (max_size : option Z)
  : result (Z * Z) :=
  match size with
  | SizePair wh => Ok wh
  | SizeInt s =>
      let* (oh, ow) := get_size_with_aspect_ratio image_size s max_size in
      Ok (ow, oh)
  end.

End Resizer.

(** ** Arrays as nested lists *)

Definition array2 (A : Type) : Type := list (list A).
Definition array3 (A : Type) : Type := list (list (list A)).

(** [np.zeros((h, w))] and [np.zeros((c, h, w))], for the zero [z] of the dtype. *)
Definition zeros2 {A : Type} (z : A) (h w : nat) : array2 A := repeat (repeat z w) h.
Definition zeros3 {A : Type} (z : A) (c h w : nat) : array3 A := repeat (zeros2 z h w) c.

(** [dst[:len(src)] = src], element by element with [f]; what lies beyond
    [src] keeps the value of [dst]. *)
Fixpoint overlay {A : Type} (f : A -> A -> A) (dst src : list A) : list A :=
  match dst, src with
  | d :: dst', s :: src' => f d s :: overlay f dst' src'
  | _, _ => dst
  end.

(** A numpy array of three dimensions: its [shape] and its entries, which
    are [data[i][j][k]] for [(i, j, k)] below the shape. *)
Record ndarray (A : Type) : Type := {
  shape : nat * nat * nat;
  data : array3 A
}.

Arguments shape {A} n.
Arguments data {A} n.

(** [list(a.shape)]. *)
Definition shape_list {A : Type} (a : ndarray A) : list nat :=
  let '(s0, s1, s2) := shape a in [s0; s1; s2].

(** [np.zeros((c, h, w), dtype)]. *)
Definition np_zeros {A : Type} (z : A) (c h w : nat) : ndarray A :=
  {| shape := (c, h, w); data := zeros3 z c h w |}.

(** [dst[:a, :b, :c] = np.copy(src)] where [(a, b, c)] is the shape of
    [src]: the entries of [src] go to the top-left corner of [dst]. *)
Definition assign_prefix3 {A : Type} (dst src : ndarray A) : ndarray A :=
  {| shape := shape dst;
     data := overlay (overlay (overlay (fun _ s => s))) (data dst) (data src) |}.

(** [l[:n] = v] on the first [n] entries, each rewritten by [f]; a slice is
    clipped at the end of the list. *)
Fixpoint fill_prefix {A : Type} (f : A -> A) (n : nat) (l : list A) : list A :=
  match n, l with
  | S n', x :: l' => f x :: fill_prefix f n' l'
  | _, _ => l
  end.

(** [m[:a, :b] = v]. *)
Definition fill_prefix2 {A : Type} (v : A) (a b : nat) (m : array2 A) : array2 A :=
  fill_prefix (fill_prefix (fun _ => v) b) a m.

(** [a[i][j]], with [d] outside of the array. *)
Definition at2 {A : Type} (d : A) (a : array2 A) (i j : nat) : A :=
  nth j (nth i a []) d.

(** [enumerate(xs)]. *)
Definition enumerate {A : Type} (xs : list A) : list (nat * A) :=
  combine (seq 0 (length xs)) xs.

(** [zip(a, b, c)]. *)
Definition zip3 {A B C : Type} (a : list A) (b : list B) (c : list C)
  : list (A * B * C) :=
  combine (combine a b) c.

(** ** Batch Packer: [_max_by_axis] and [encode_inputs] *)

(** The [return_tensors] argument, [None], a [TensorType] or its name, or a
    string that names no tensor type. *)
Inductive TensorType : Type := PYTORCH | TENSORFLOW | NUMPY | JAX.

Inductive return_tensors_arg : Type :=
| RtNone
| RtType (t : TensorType)
| RtUnknown (name : string).

(** One entry of [annotations]: a dictionary in which the keys ["masks"] and
    ["labels"] may be present. *)
Record annotation : Type := {
  ann_masks : option (ndarray bool);
  ann_labels : option (list Z);
  ann_original_size : option (Z * Z)
}.

(** The [data] of the returned [BatchFeature]. *)
Record BatchFeature : Type := {
  pixel_values : list (ndarray Q);
  pixel_mask : list (array2 Z);
  mask_labels : list (ndarray bool);
  class_labels : list (list Z)
}.

Module Packer.

Definition _max_by_axis (the_list : list (list nat)) : result (list nat) :=
  match the_list with
  | [] => Raise IndexError
  | maxes :: rest =>
      foldM (fun maxes sublist =>
        foldM (fun (maxes : list nat) '(index, item) =>
          match maxes !! index with
          | Some m => Ok (<[index := Nat.max m item]> maxes)
          | None => Raise IndexError
          end) (enumerate sublist) maxes) rest maxes
  end.

(** [d[key]] on an annotation. *)
Definition getitem {A : Type} (field : option A) : result A :=
  match field with
  | Some v => Ok v
  | None => Raise KeyError
  end.

(** Truth value of [annotations]: a non-empty list. *)
Definition truthy {A : Type} (annotations : option (list A)) : bool :=
  match annotations with
  | Some (_ :: _) => true
  | _ => false
  end.

(** The check of lines 367-376 on [return_tensors]. *)
Definition check_tensor_type (torch_available : bool) (return_tensors : return_tensors_arg)
  : result unit :=
  match return_tensors with
  | RtType PYTORCH =>
      if torch_available then Ok tt
      else Raise (ImportError
        "Unable to convert output to PyTorch tensors format, PyTorch is not installed.")
  | RtType _ => Raise (ValueError "Only PyTorch is supported for the moment.")
  | _ => Raise (ValueError "not a valid TensorType")
  end.

(** One turn of the loop of lines 335-356. [image] is rebound to the padded
    image at line 340, and lines 354-355 read the shape of that rebound
    [image]; line 348 copies [padded_masks] into itself. *)
Definition encode_step (c height width : nat)
    (annotations : option (list annotation)) (pad_and_return_pixel_mask : bool)
    (acc : BatchFeature) (item : nat * ndarray Q) : result BatchFeature :=
  let '(idx, image) := item in
  let image :=
    if pad_and_return_pixel_mask then
      let padded_image := np_zeros 0%Q c height width in
      assign_prefix3 padded_image image
    else image in
  let pixel_values := pixel_values acc ++ [image] in
  let* (mask_labels, class_labels) :=
    if truthy annotations then
      match default [] annotations !! idx with
      | None => Raise IndexError
      | Some annotation =>
          let* masks := getitem (ann_masks annotation) in
          let masks :=
            if pad_and_return_pixel_mask then
              let padded_masks := np_zeros false (shape masks).1.1 height width in
              assign_prefix3 padded_masks padded_masks
            else masks in
          let* labels := getitem (ann_labels annotation) in
          Ok (mask_labels acc ++ [masks], class_labels acc ++ [labels])
      end
    else Ok (mask_labels acc, class_labels acc) in
  let pixel_mask :=
    if pad_and_return_pixel_mask then
      let mask := zeros2 0 height width in
      pixel_mask acc ++ [fill_prefix2 1 (shape image).1.2 (shape image).2 mask]
    else pixel_mask acc in
  Ok {| pixel_values := pixel_values; pixel_mask := pixel_mask;
        mask_labels := mask_labels; class_labels := class_labels |}.

(** [BatchFeature(data=data, tensor_type=return_tensors)] is kept as the
    four lists of [data]; the conversion of the lists to tensors is left to
    that class. *)
Definition encode_inputs (torch_available : bool)
    (pixel_values_list : list (ndarray Q))
    (annotations : option (list annotation))
    (pad_and_return_pixel_mask : bool)
    (return_tensors : return_tensors_arg) : result BatchFeature :=
  let* max_size := _max_by_axis (map shape_list pixel_values_list) in
  match max_size with
  | [c; height; width] =>
      let* encoded_inputs :=
        foldM (encode_step c height width annotations pad_and_return_pixel_mask)
          (enumerate pixel_values_list)
          {| pixel_values := []; pixel_mask := []; mask_labels := []; class_labels := [] |} in
      if truthy annotations then
        let* _ := check_tensor_type torch_available return_tensors in
        Ok encoded_inputs
      else Ok encoded_inputs
  | _ => Raise (ValueError "not enough values to unpack")
  end.

End Packer.

(** ** Panoptic Merger: [remove_low_and_no_objects] and
       [post_process_panoptic_segmentation] *)

(** An entry of [dataset_metadata["classes"]]. The table is built outside of
    this file and is an argument of the functions below. *)
Record ClassSpec : Type := {
  is_thing : bool;
  label : string
}.

(** [PanopticSegmentationSegment]. *)
Record PanopticSegmentationSegment : Type := {
  seg_id : Z;
  seg_category_id : nat;
  seg_is_thing : bool;
  seg_label : string
}.

(** What lines 450-460 compute from [outputs : MaskFormerOutput] and hand to
    the loop over the batch. The softmax, its
    [max(-1)] and the sigmoid are computed by torch from the logits; the
    record holds their values: per image and query the best class
    probability and its index, and per image, query and pixel the mask
    probability, together with [num_labels], [height] and [width], which
    the source reads off the shapes of the two logit tensors. *)
Record decoded_outputs : Type := {
  num_labels : nat;
  height : nat;
  width : nat;
  pred_scores : list (list Q);
  pred_labels : list (list nat);
  mask_probs : list (list (array2 Q))
}.

(** One entry of [results]: the segmentation map and the segment list. *)
Record panoptic_result : Type := {
  segmentation : array2 Z;
  segments : list PanopticSegmentationSegment
}.

Module Merger.

(** [xs[keep]] for a boolean tensor [keep] over the leading axis. *)
Fixpoint bool_index {A : Type} (xs : list A) (keep : list bool) : list A :=
  match xs, keep with
  | x :: xs', b :: keep' =>
      if b then x :: bool_index xs' keep' else bool_index xs' keep'
  | _, _ => []
  end.

Definition remove_low_and_no_objects
    (masks : list (array2 Q)) (scores : list Q) (labels : list nat)
    (object_mask_threshold : Q) (num_labels : nat)
  : result (list (array2 Q) * list Q * list nat) :=
  if negb ((length masks =? length scores)%nat && (length scores =? length labels)%nat)
  then Raise (ValueError "mask, scores and labels must have the same shape!")
  else
    let to_keep :=
      zip_with (fun l s => negb (l =? num_labels)%nat && Qlt_bool object_mask_threshold s)
        labels scores in
    Ok (bool_index masks to_keep, bool_index scores to_keep, bool_index labels to_keep).

(** [mask_probs *= pred_scores.view(-1, 1, 1)]: plane [k] times score [k]. *)
Definition scale_by_scores (mask_probs : list (array2 Q)) (pred_scores : list Q)
  : list (array2 Q) :=
  zip_with (fun plane s => map (map (fun p => (p * s)%Q)) plane) mask_probs pred_scores.

(** Index of the first maximal entry. *)
Fixpoint argmax_from (best_i : nat) (best : Q) (i : nat) (xs : list Q) : nat :=
  match xs with
  | [] => best_i
  | x :: xs' =>
      if Qlt_bool best x then argmax_from i x (S i) xs'
      else argmax_from best_i best (S i) xs'
  end.

Definition argmax (xs : list Q) : nat :=
  match xs with
  | [] => 0%nat
  | x :: xs' => argmax_from 0%nat x 1%nat xs'
  end.

(** [mask_probs.argmax(0)], of shape [(height, width)]. *)
Definition argmax0 (height width : nat) (mask_probs : list (array2 Q)) : array2 nat :=
  map (fun i => map (fun j => argmax (map (fun plane => at2 0%Q plane i j) mask_probs))
                 (seq 0 width))
      (seq 0 height).

(** [t.sum()] of a boolean tensor. *)
Definition count_true (m : array2 bool) : Z :=
  Z.of_nat (length (List.filter (fun b : bool => b) (concat m))).

(** [segmentation[mask_k] = v]. *)
Definition masked_assign (segmentation : array2 Z) (mask_k : array2 bool) (v : Z)
  : array2 Z :=
  zip_with (zip_with (fun cell (b : bool) => if b then v else cell)) segmentation mask_k.

(** The local variables that the loop of lines 484-523 updates. The objects
    [segmentation] and [segments] of the current image are reached from
    [results] by reference: [results] holds one address per append. *)
Record loop_state : Type := {
  current_segment_id : Z;
  cur : panoptic_result;
  stuff_memory_list : gmap nat Z;
  results : list nat
}.

(** [mask_k.sum()] of line 492. *)
Definition mask_k_area (mask_labels : array2 nat) (k : nat) : Z :=
  count_true (map (map (fun l => (l =? k)%nat)) mask_labels).

(** [(mask_probs[k] >= 0.5).sum()] of line 495; [mask_probs] is the tensor
    that line 478 has multiplied by the scores. *)
Definition original_area (mask_probs : list (array2 Q)) (k : nat) : Z :=
  count_true (map (map (fun p => Qle_bool (1 # 2) p)) (nth k mask_probs [])).

(** One turn of the loop of lines 484-523, for the image whose objects live
    at address [addr]. *)
Definition merge_step (classes : list ClassSpec) (overlap_mask_area_threshold : Q)
    (mask_probs : list (array2 Q)) (mask_labels : array2 nat) (pred_labels : list nat)
    (addr : nat) (st : loop_state) (k : nat) : result loop_state :=
  let pred_class := nth k pred_labels 0%nat in
  let* class_spec :=
    match classes !! pred_class with
    | Some spec => Ok spec
    | None => Raise IndexError
    end in
  let is_stuff := negb (is_thing class_spec) in
  let mask_k := map (map (fun l => (l =? k)%nat)) mask_labels in
  let mask_k_area := mask_k_area mask_labels k in
  let original_area := original_area mask_probs k in
  let mask_does_exist := (0 <? mask_k_area) && (0 <? original_area) in
  let st :=
    if mask_does_exist then
      let area_ratio := (inject_Z mask_k_area / inject_Z original_area)%Q in
      let mask_k_is_overlapping_enough := Qlt_bool overlap_mask_area_threshold area_ratio in
      if mask_k_is_overlapping_enough then
        let current_segment_id :=
          match stuff_memory_list st !! pred_class with
          | Some sid => sid
          | None => current_segment_id st + 1
          end in
        let segmentation := masked_assign (segmentation (cur st)) mask_k current_segment_id in
        let segments :=
          segments (cur st) ++
            [{| seg_id := current_segment_id; seg_category_id := pred_class;
                seg_is_thing := negb is_stuff; seg_label := label class_spec |}] in
        let stuff_memory_list :=
          if is_stuff then <[pred_class := current_segment_id]> (stuff_memory_list st)
          else stuff_memory_list st in
        {| current_segment_id := current_segment_id;
           cur := {| segmentation := segmentation; segments := segments |};
           stuff_memory_list := stuff_memory_list;
           results := results st |}
      else st
    else st in
  Ok {| current_segment_id := current_segment_id st;
        cur := cur st;
        stuff_memory_list := stuff_memory_list st;
        results := results st ++ [addr] |}.

(** The store of the objects that [results] refers to, one per image, and
    the list [results] of references. *)
Record store : Type := {
  objects : list panoptic_result;
  refs : list nat
}.

(** The body of the loop of lines 465-523 for one image. *)
Definition merge_image (classes : list ClassSpec) (height width num_labels : nat)
    (object_mask_threshold overlap_mask_area_threshold : Q)
    (st : store) (item : list (array2 Q) * list Q * list nat) : result store :=
  let '(mask_probs, pred_scores, pred_labels) := item in
  let* (mask_probs, pred_scores, pred_labels) :=
    remove_low_and_no_objects mask_probs pred_scores pred_labels
      object_mask_threshold num_labels in
  let we_detect_something := (0 <? length mask_probs)%nat in
  let addr := length (objects st) in
  let fresh := {| segmentation := zeros2 0 height width; segments := [] |} in
  if we_detect_something then
    let mask_probs := scale_by_scores mask_probs pred_scores in
    let mask_labels := argmax0 height width mask_probs in
    let* final :=
      foldM (merge_step classes overlap_mask_area_threshold mask_probs mask_labels
               pred_labels addr)
        (seq 0 (length pred_labels))
        {| current_segment_id := 0; cur := fresh; stuff_memory_list := ∅;
           results := refs st |} in
    Ok {| objects := objects st ++ [cur final]; refs := results final |}
  else Ok {| objects := objects st ++ [fresh]; refs := refs st |}.

Definition post_process_panoptic_segmentation (classes : list ClassSpec)
    (outputs : decoded_outputs)
    (object_mask_threshold overlap_mask_area_threshold : Q)
  : result (list panoptic_result) :=
  let* final :=
    foldM (merge_image classes (height outputs) (width outputs) (num_labels outputs)
             object_mask_threshold overlap_mask_area_threshold)
      (zip3 (mask_probs outputs) (pred_scores outputs) (pred_labels outputs))
      {| objects := []; refs := [] |} in
  Ok (omap (fun addr => objects final !! addr) (refs final)).

End Merger.

(** ** Calling convention: binding the arguments of a call *)

Module Call.

Section Binding.

(** The values passed at a call. *)
Context {value : Type}.

(** The parameters of a [def] after [self], in order, each with its default
    if it has one; the function takes neither [*args] nor [**kwargs]. *)
Definition parameters : Type := list (string * option value).

Fixpoint bind_positional (params : parameters) (positional : list value)
  : result (gmap string value) :=
  match positional, params with
  | [], _ => Ok ∅
  | v :: vs, (name, _) :: ps =>
      let* env := bind_positional ps vs in Ok (<[name := v]> env)
  | _ :: _, [] => Raise (TypeError "too many positional arguments")
  end.

Definition bind_keyword (fname : string) (params : parameters)
    (env : gmap string value) (kw : string * value) : result (gmap string value) :=
  let '(name, v) := kw in
  if negb (existsb (String.eqb name) (map fst params)) then
    Raise (TypeError
      (String.append fname
        (String.append "() got an unexpected keyword argument '"
          (String.append name "'"))))
  else
    match env !! name with
    | Some _ => Raise (TypeError "got multiple values for an argument")
    | None => Ok (<[name := v]> env)
    end.

Definition bind_default (env : gmap string value) (param : string * option value)
  : result (gmap string value) :=
  let '(name, dflt) := param in
  match env !! name, dflt with
  | Some _, _ => Ok env
  | None, Some v => Ok (<[name := v]> env)
  | None, None => Raise (TypeError "missing a required positional argument")
  end.

(** The environment in which the body of the callee runs, or the [TypeError]
    of a call that does not fit the parameters. *)
Definition bind_arguments (fname : string) (params : parameters)
    (positional : list value) (keywords : list (string * value))
  : result (gmap string value) :=
  let* env := bind_positional params positional in
  let* env := foldM (bind_keyword fname params) keywords env in
  foldM bind_default params env.

End Binding.

End Call.

(** ** The entry point [__call__] *)

(** The attributes set by [__init__]. *)
Record MaskFormerFeatureExtractor : Type := {
  do_resize : bool;
  size : option Resizer.size_arg;
  max_size : option Z;
  do_normalize : bool;
  image_mean : list Q;
  image_std : list Q
}.

Module Extractor.

Section WithCollaborators.

(** A PIL image, a numpy array or a torch tensor that holds one image. *)
Variable image_t : Type.

(** The inherited mixin methods, torch and numpy, which are not part of
    this file. Each may raise. *)
Variable is_pil_image : image_t -> bool.
Variable to_pil_image : image_t -> result image_t.
Variable image_size : image_t -> Z * Z.
Variable resize : image_t -> Z * Z -> result image_t.
Variable interpolate_nearest : ndarray bool -> Z -> Z -> result (ndarray bool).
Variable normalize : image_t -> list Q -> list Q -> result image_t.
Variable to_array : image_t -> result (ndarray Q).
Variable torch_available : bool.

(** The [images] argument. *)
Inductive images_arg : Type :=
| OneImage (i : image_t)
| ImageList (l : list image_t)
| OtherList
| OtherObject.

(** The [annotations] argument when it is not [None]. *)
Inductive annotations_arg : Type :=
| AnnDict (d : annotation)
| AnnList (l : list annotation).

Definition _resize (image : image_t) (size : Resizer.size_arg)
    (target : option annotation) (max_size : option Z)
  : result (image_t * option annotation) :=
  let* image := if is_pil_image image then Ok image else to_pil_image image in
  let* size := Resizer.get_size (image_size image) size max_size in
  let* rescaled_image := resize image size in
  let '(width, height) := size in
  let* target :=
    match target with
    | None => Ok None
    | Some target =>
        let target :=
          {| ann_masks := ann_masks target; ann_labels := ann_labels target;
             ann_original_size := Some (image_size image) |} in
        match ann_masks target with
        | Some masks =>
            let* interpolated_masks := interpolate_nearest masks height width in
            Ok (Some {| ann_masks := Some interpolated_masks;
                        ann_labels := ann_labels target;
                        ann_original_size := ann_original_size target |})
        | None => Ok (Some target)
        end
    end in
  Ok (rescaled_image, target).

Definition _normalize (image : image_t) (mean std : list Q) (target : option annotation)
  : result (image_t * option annotation) :=
  let* image := normalize image mean std in
  Ok (image, target).

(** [for idx, (image, target) in enumerate(zip(images, annotations))] with
    the two assignments [images[idx] = image], [annotations[idx] = target];
    entries beyond the shorter list stay as they are. The transformation [f]
    is given a dictionary and returns one, so [default] never falls back. *)
Fixpoint transform_pairs
    (f : image_t -> option annotation -> result (image_t * option annotation))
    (images : list image_t) (annotations : list annotation)
  : result (list image_t * list annotation) :=
  match images, annotations with
  | image :: images', target :: annotations' =>
      let* (image, target') := f image (Some target) in
      let* (images', annotations') := transform_pairs f images' annotations' in
      Ok (image :: images', default target target' :: annotations')
  | _, _ => Ok (images, annotations)
  end.

(** The values that [__call__] passes to [encode_inputs]. *)
Inductive value : Type :=
| VImages (l : list image_t)
| VAnnotations (a : option (list annotation))
| VBool (b : bool)
| VReturnTensors (r : return_tensors_arg).

(** Lines 301-307: the parameters of [encode_inputs]. *)
Definition encode_inputs_params : Call.parameters :=
  [("pixel_values_list", None);
   ("annotations", Some (VAnnotations None));
   ("pad_and_return_pixel_mask", Some (VBool true));
   ("return_tensors", Some (VReturnTensors RtNone))].

(** A call of [self.encode_inputs] with the given positional and keyword
    arguments. *)
Definition call_encode_inputs (positional : list value)
    (keywords : list (string * value)) : result BatchFeature :=
  let* env := Call.bind_arguments "encode_inputs" encode_inputs_params positional keywords in
  match env !! "pixel_values_list", env !! "annotations",
        env !! "pad_and_return_pixel_mask", env !! "return_tensors" with
  | Some (VImages images), Some (VAnnotations annotations),
    Some (VBool pad), Some (VReturnTensors return_tensors) =>
      let* pixel_values_list := mapM to_array images in
      Packer.encode_inputs torch_available pixel_values_list annotations pad return_tensors
  | _, _, _, _ => Raise (TypeError "argument of an unexpected type")
  end.

(** Lines 211-250 of [__call__]: the checks of the arguments. They return
    the list of images and the list of annotations that the rest works on. *)
Definition check_arguments (images : images_arg) (annotations : option annotations_arg)
  : result (list image_t * option (list annotation)) :=
  let valid_images :=
    match images with
    | OneImage _ | ImageList _ => true
    | OtherList | OtherObject => false
    end in
  if negb valid_images then
    Raise (ValueError "Images must of type `PIL.Image.Image`, `np.ndarray` or `torch.Tensor`")
  else
  let* is_batched :=
    match images with
    | ImageList [] => Raise IndexError
    | ImageList (_ :: _) => Ok true
    | _ => Ok false
    end in
  let images := match images with ImageList l => l | OneImage i => [i] | _ => [] end in
  (* [annotations = [annotations]] when not batched, then the check of
     line 240; [None] stands for a list that is not a list of dictionaries *)
  let* annotations :=
    match annotations with
    | None => Ok None
    | Some a =>
        let as_list :=
          if is_batched then match a with AnnList l => Some l | AnnDict _ => None end
          else match a with AnnDict d => Some [d] | AnnList _ => None end in
        match as_list with
        | Some [] => Raise IndexError
        | Some (d :: l) =>
            if bool_decide (is_Some (ann_masks d)) && bool_decide (is_Some (ann_labels d))
            then Ok (Some (d :: l))
            else Raise (ValueError "Annotations must of type `Dict` or `List[Dict]`")
        | None => Raise (ValueError "Annotations must of type `Dict` or `List[Dict]`")
        end
    end in
  Ok (images, annotations).

(** Lines 252-274: the transformations, resizing and normalization. *)
Definition transformations (self : MaskFormerFeatureExtractor)
    (images : list image_t) (annotations : option (list annotation))
  : result (list image_t * option (list annotation)) :=
  let* (images, annotations) :=
    if do_resize self then
      match size self with
      | Some sz =>
          match annotations with
          | Some anns =>
              let* (images, anns) :=
                transform_pairs (fun image target => _resize image sz target (max_size self))
                  images anns in
              Ok (images, Some anns)
          | None =>
              let* images :=
                mapM (fun image =>
                        let* (image, _) := _resize image sz None (max_size self) in Ok image)
                     images in
              Ok (images, None)
          end
      | None => Ok (images, annotations)
      end
    else Ok (images, annotations) in
  if do_normalize self then
    match annotations with
    | Some anns =>
        let* (images, anns) :=
          transform_pairs
            (fun image target => _normalize image (image_mean self) (image_std self) target)
            images anns in
        Ok (images, Some anns)
    | None =>
        let* images :=
          mapM (fun image =>
                  let* (image, _) :=
                    _normalize image (image_mean self) (image_std self) None in
                  Ok image)
               images in
        Ok (images, None)
    end
  else Ok (images, annotations).

(** Lines 211-274: all that [__call__] does before it calls [encode_inputs]. *)
Definition prepare (self : MaskFormerFeatureExtractor)
    (images : images_arg) (annotations : option annotations_arg)
  : result (list image_t * option (list annotation)) :=
  let* (images, annotations) := check_arguments images annotations in
  transformations self images annotations.

(** Lines 276-278: two positional arguments and the keywords [should_pad]
    and [return_tensors]. *)
Definition call_site (images : list image_t) (annotations : option (list annotation))
    (pad_and_return_pixel_mask : bool) (return_tensors : return_tensors_arg)
  : result BatchFeature :=
  call_encode_inputs
    [VImages images; VAnnotations annotations]
    [("should_pad", VBool pad_and_return_pixel_mask);
     ("return_tensors", VReturnTensors return_tensors)].

Definition __call__ (self : MaskFormerFeatureExtractor)
    (images : images_arg) (annotations : option annotations_arg)
    (pad_and_return_pixel_mask : bool) (return_tensors : return_tensors_arg)
  : result BatchFeature :=
  let* (images, annotations) := prepare self images annotations in
  let* encoded_inputs :=
    call_site images annotations pad_and_return_pixel_mask return_tensors in
  match annotations with
  | Some _ =>
      let* _ := Packer.check_tensor_type torch_available return_tensors in
      Ok encoded_inputs
  | None => Ok encoded_inputs
  end.

End WithCollaborators.

Arguments OneImage {image_t} i.
Arguments ImageList {image_t} l.
Arguments OtherList {image_t}.
Arguments OtherObject {image_t}.

End Extractor.

(** ** Well-formed calls of [__call__]

    The [images] argument is one image or a non-empty list of images, and
    [annotations] is left out or fits it: a dictionary for one image, a list
    of dictionaries for a list, with the keys ["masks"] and ["labels"] in
    the first dictionary. *)
Definition well_formed_call {image_t : Type}
    (images : Extractor.images_arg image_t)
    (annotations : option Extractor.annotations_arg) : Prop :=
  match images, annotations with
  | Extractor.OneImage _, None => True
  | Extractor.ImageList (_ :: _), None => True
  | Extractor.OneImage _, Some (Extractor.AnnDict d) =>
      is_Some (ann_masks d) /\ is_Some (ann_labels d)
  | Extractor.ImageList (_ :: _), Some (Extractor.AnnList (d :: _)) =>
      is_Some (ann_masks d) /\ is_Some (ann_labels d)
  | _, _ => False
  end.

(** ** The specification's reading of the filtering step

    Section 4.4, step 2: discard any query whose predicted class equals the
    reserved null class, or whose predicted score is at most
    [objectMaskThreshold]; the surviving queries keep their order. *)

Module Spec.

Definition discards (objectMaskThreshold : Q) (nullClass : nat)
    (query : array2 Q * Q * nat) : bool :=
  let '(_, score, class) := query in
  (class =? nullClass)%nat || Qle_bool score objectMaskThreshold.

Definition filtering (objectMaskThreshold : Q) (nullClass : nat)
    (queries : list (array2 Q * Q * nat)) : list (array2 Q * Q * nat) :=
  List.filter (fun query => negb (discards objectMaskThreshold nullClass query)) queries.

(** Section 4.4, step 4: the support of the mask of a query before the
    competition, the number of pixels of the plane with probability at
    least one half. *)
Definition rawArea (plane : array2 Q) : Z :=
  Z.of_nat (length (List.filter (fun p => Qle_bool (1 # 2) p) (concat plane))).

End Spec.

(** ** Predicates on the results of the Merger *)

(** The number of queries of an image that survive the filtering. *)
Definition survivors (object_mask_threshold : Q) (num_labels : nat)
    (item : list (array2 Q) * list Q * list nat) : nat :=
  let '(masks, scores, labels) := item in
  length (Spec.filtering object_mask_threshold num_labels (zip3 masks scores labels)).

(** The references of the store after a batch, image by image. *)
Definition refs_of (first : nat) (counts : list nat) : list nat :=
  flat_map (fun '(addr, n) => repeat addr n) (combine (seq first (length counts)) counts).

(** A result is covered: the ids of its segments are positive, and every
    cell of its map is 0 or the id of one of its segments. *)
Definition covered (r : panoptic_result) : Prop :=
  Forall (fun s => 0 < seg_id s) (segments r) /\
  forall row cell, In row (segmentation r) -> In cell row ->
    cell = 0 \/ exists s, In s (segments r) /\ seg_id s = cell.

(** The invariant of the loop of lines 484-523. *)
Definition loop_invariant (st : Merger.loop_state) : Prop :=
  0 <= Merger.current_segment_id st /\
  (forall c sid, Merger.stuff_memory_list st !! c = Some sid -> 0 < sid) /\
  covered (Merger.cur st).

(** ** The range of the Resizer in which doubles are exact enough

    The source divides in double precision, [Resizer] in exact fractions.
    When the products of the longer edge with [size] and with [max_size] stay
    below [2^50], the two agree: such a product is an integer that a double
    holds exactly; its quotient by an edge is rounded by less than the
    distance of the exact quotient to the next integer, so that [int(a / b)]
    is the integer quotient; and the left side of the test of line 105 is
    rounded by less than its distance to [max_size] unless it equals
    [max_size], where both outcomes of the test give the same target. *)
Definition double_exact (width height size : Z) (max_size : option Z) : Prop :=
  Z.max width height * size < 2 ^ 50 /\
  match max_size with
  | Some cap => Z.max width height * cap < 2 ^ 50
  | None => True
  end.

(** ** Predicates on arrays *)

(** [a[i][j][k]], with [d] outside of the array. *)
Definition at3 {A : Type} (d : A) (a : array3 A) (i j k : nat) : A :=
  nth k (nth j (nth i a []) []) d.

(** The entries of an [ndarray] fill its shape. *)
Definition well_shaped {A : Type} (a : ndarray A) : Prop :=
  length (data a) = (shape a).1.1 /\
  Forall (fun plane =>
            length plane = (shape a).1.2 /\
            Forall (fun row => length row = (shape a).2) plane)
         (data a).

(** The annotation has the two keys that [encode_inputs] reads. *)
Definition has_keys (target : annotation) : Prop :=
  is_Some (ann_masks target) /\ is_Some (ann_labels target).

(** [masks.shape[0]] and [labels] of an annotation that has its keys. *)
Definition instances (target : annotation) : nat :=
  match ann_masks target with
  | Some masks => (shape masks).1.1
  | None => 0%nat
  end.

Definition labels_of (target : annotation) : list Z :=
  default [] (ann_labels target).

(** ** Further predicates on the Merger *)

(** A two-dimensional array of [height] rows of [width] entries. *)
Definition has_shape {A : Type} (height width : nat) (m : array2 A) : Prop :=
  length m = height /\ Forall (fun row => length row = width) m.

(** The function returns: it raises nothing. *)
Definition returns {A : Type} (r : result A) : Prop := exists v, r = Ok v.

(** The sum of [mask_k_area] over the queries [0 .. n-1]. *)
Definition assigned_pixels (mask_labels : array2 nat) (n : nat) : Z :=
  fold_right Z.add 0 (map (Merger.mask_k_area mask_labels) (seq 0 n)).

(** The record of a segment repeats the entry of its class in the table. *)
Definition in_table (classes : list ClassSpec) (s : PanopticSegmentationSegment) : Prop :=
  exists spec,
    classes !! seg_category_id s = Some spec /\
    seg_is_thing s = is_thing spec /\ seg_label s = label spec.

(** Every id of a result lies between 1 and the number of its records. *)
Definition ids_within (r : panoptic_result) : Prop :=
  Forall (fun s => 1 <= seg_id s <= Z.of_nat (length (segments r))) (segments r).

(** The invariant of the counter and of the memory of stuff classes. *)
Definition counter_invariant (st : Merger.loop_state) : Prop :=
  0 <= Merger.current_segment_id st <= Z.of_nat (length (segments (Merger.cur st))) /\
  (forall c sid, Merger.stuff_memory_list st !! c = Some sid ->
     1 <= sid <= Z.of_nat (length (segments (Merger.cur st)))) /\
  ids_within (Merger.cur st).

(** The queries of an image fit: the three tensors have one length, and the
    class of every surviving query has an entry in the table. *)
Definition fits (classes : list ClassSpec) (object_mask_threshold : Q) (num_labels : nat)
    (item : list (array2 Q) * list Q * list nat) : Prop :=
  let '(masks, scores, labels) := item in
  length masks = length scores /\ length scores = length labels /\
  Forall (fun q => (snd q < length classes)%nat)
    (Spec.filtering object_mask_threshold num_labels (zip3 masks scores labels)).

(** The end-to-end example of section 8 of the specification: a 3 x 3 grid,
    a sky query of score 0.9 on the rows 0 and 1 and a cat query of score
    0.85 on the row 2. *)
Definition example_classes : list ClassSpec :=
  [{| is_thing := false; label := "sky" |}; {| is_thing := true; label := "cat" |}].

Definition example_outputs : decoded_outputs :=
  {| num_labels := 2; height := 3; width := 3;
     pred_scores := [[9 # 10; 85 # 100]];
     pred_labels := [[0; 1]]%nat;
     mask_probs := [[[[1; 1; 1]; [1; 1; 1]; [0; 0; 0]];
                     [[0; 0; 0]; [0; 0; 0]; [1; 1; 1]]]]%Q |}.

Definition example_result : panoptic_result :=
  {| segmentation := [[1; 1; 1]; [1; 1; 1]; [2; 2; 2]];
     segments :=
       [{| seg_id := 1; seg_category_id := 0; seg_is_thing := false; seg_label := "sky" |};
        {| seg_id := 2; seg_category_id := 1; seg_is_thing := true; seg_label := "cat" |}] |}.

(** ** Segmentation Decoder: [post_process_segmentation] *)

(** A torch tensor of three and of four dimensions: its shape and its
    entries. *)
Record tensor3 : Type := {
  shape3 : nat * nat * nat;
  data3 : array3 Q
}.

Record tensor4 : Type := {
  shape4 : nat * nat * nat * nat;
  data4 : list (array3 Q)
}.

(** What lines 390-396 compute from [outputs : MaskFormerOutput] with
    torch's softmax and sigmoid, which keep the shape of their argument:
    [class_probs] is [class_queries_logits.softmax(dim=-1)], of the shape
    [(batch, queries, classes + 1)] with the null class last, and
    [masks_probs] is [masks_queries_logits.sigmoid()], of the shape
    [(batch, queries, height, width)]. *)
Record decoder_inputs : Type := {
  class_probs : tensor3;
  masks_probs : tensor4
}.

Module Decoder.

(** [t[..., :-1]]: the last axis loses its last index. *)
Definition drop_null_class (t : tensor3) : tensor3 :=
  let '(b, q, c) := shape3 t in
  {| shape3 := (b, q, (c - 1)%nat);
     data3 := map (map (@removelast Q)) (data3 t) |}.

(** The sum over [q] of an einsum. *)
Definition sum_over (n : nat) (f : nat -> Q) : Q :=
  fold_right Qplus 0%Q (map f (seq 0 n)).

(** The size of a subscript that two operands of an einsum share: the two
    sizes are equal, or one of them is 1 and that operand is broadcast;
    otherwise torch raises a [RuntimeError]. *)
Definition broadcast (n m : nat) : result nat :=
  if (n =? m)%nat then Ok n
  else if (n =? 1)%nat then Ok m
  else if (m =? 1)%nat then Ok n
  else Raise (OtherError "RuntimeError: einsum(): operands do not broadcast").

(** The index read on an axis of size [n] for the index [i] of the
    broadcast axis. *)
Definition broadcast_index (n i : nat) : nat :=
  if (n =? 1)%nat then 0%nat else i.

(** [torch.einsum("bqc, bqhw -> bchw", masks_classes, masks_probs)]: the
    sizes of [b] and [q] come from the two operands, those of [c], [h] and
    [w] from the one that has the subscript. *)
Definition einsum_bqc_bqhw (masks_classes : tensor3) (masks_probs : tensor4)
  : result tensor4 :=
  let '(b1, q1, c) := shape3 masks_classes in
  let '(b2, q2, h, w) := shape4 masks_probs in
  let* b := broadcast b1 b2 in
  let* q := broadcast q1 q2 in
  Ok {| shape4 := (b, c, h, w);
        data4 :=
          map (fun ib =>
            map (fun ic =>
              map (fun ih =>
                map (fun iw =>
                  sum_over q (fun iq =>
                    (nth ic (nth (broadcast_index q1 iq)
                               (nth (broadcast_index b1 ib) (data3 masks_classes) []) []) 0
                     * at2 0 (nth (broadcast_index q2 iq)
                                (nth (broadcast_index b2 ib) (data4 masks_probs) []) [])
                         ih iw)%Q))
                  (seq 0 w))
                (seq 0 h))
              (seq 0 c))
            (seq 0 b) |}.

Definition post_process_segmentation (outputs : decoder_inputs) : result tensor4 :=
  let masks_classes := drop_null_class (class_probs outputs) in
  let masks_probs := masks_probs outputs in
  einsum_bqc_bqhw masks_classes masks_probs.

End Decoder.

(** The entries of a tensor fill its shape. *)
Definition fills3 (t : tensor3) : Prop :=
  let '(b, q, c) := shape3 t in
  length (data3 t) = b /\
  Forall (fun image => length image = q /\ Forall (fun row => length row = c) image)
    (data3 t).

Definition fills4 (t : tensor4) : Prop :=
  let '(b, q, h, w) := shape4 t in
  length (data4 t) = b /\
  Forall (fun image => length image = q /\ Forall (has_shape h w) image) (data4 t).

(** The entries of the two tensors are probabilities. *)
Definition probabilities (outputs : decoder_inputs) : Prop :=
  (forall image row p, In image (data3 (class_probs outputs)) -> In row image -> In p row ->
     (0 <= p <= 1)%Q) /\
  (forall image plane row p, In image (data4 (masks_probs outputs)) -> In plane image ->
     In row plane -> In p row -> (0 <= p <= 1)%Q).

(** Two results of the softmax differ in the probabilities of the null
    class at most: they agree on the [classes] other classes. *)
Definition same_classes (classes : nat) (t t' : tensor3) : Prop :=
  forall ib iq ic, (ic < classes)%nat ->
    at3 0%Q (data3 t') ib iq ic = at3 0%Q (data3 t) ib iq ic.

(** * Properties *)

(** ** Python numerics *)

Lemma Qlt_bool_iff (x y : Q) : Qlt_bool x y = true <-> (x < y)%Q.
Proof.
  unfold Qlt_bool. rewrite negb_true_iff. split.
  - intros H. apply Qnot_le_lt. intros Hle. apply Qle_bool_iff in Hle. congruence.
  - intros H. destruct (Qle_bool y x) eqn:E; [|reflexivity].
    apply Qle_bool_iff in E. exfalso. apply (Qlt_not_le _ _ H E).
Qed.

Lemma Qlt_bool_false_iff (x y : Q) : Qlt_bool x y = false <-> ~ (x < y)%Q.
Proof.
  rewrite <- Qlt_bool_iff. destruct (Qlt_bool x y); split; congruence.
Qed.

Lemma py_truediv_inject (a : Q) (b : Z) :
  b <> 0 -> py_truediv a (inject_Z b) = Ok (a / inject_Z b)%Q.
Proof.
  intros Hb. unfold py_truediv.
  destruct (Qeq_bool (inject_Z b) 0) eqn:E; [|reflexivity].
  apply Qeq_bool_iff in E. unfold Qeq in E. simpl in E. lia.
Qed.

(** [round] returns an integer at distance at most one half. *)
Lemma py_round_near (x : Q) :
  (x - (1 # 2) <= inject_Z (py_round x) /\ inject_Z (py_round x) <= x + (1 # 2))%Q.
Proof.
  unfold py_round.
  pose proof (Qfloor_le x) as Hlo. pose proof (Qlt_floor x) as Hhi.
  rewrite inject_Z_plus in Hhi. change (inject_Z 1) with 1%Q in Hhi.
  destruct (x - inject_Z (Qfloor x) ?= 1 # 2)%Q eqn:E.
  - apply Qeq_alt in E. destruct (Z.even (Qfloor x)).
    + split; lra.
    + rewrite inject_Z_plus. change (inject_Z 1) with 1%Q. split; lra.
  - apply Qlt_alt in E. split; lra.
  - apply Qgt_alt in E. rewrite inject_Z_plus. change (inject_Z 1) with 1%Q. split; lra.
Qed.

Lemma Qdiv_inject_mult (a b : Z) :
  0 < b -> (inject_Z a / inject_Z b * inject_Z b == inject_Z a)%Q.
Proof.
  intros Hb. rewrite Qmult_comm. apply Qmult_div_r. intros H.
  unfold Qeq in H. simpl in H. lia.
Qed.

(** The same on a quotient of integers, without fractions. *)
Lemma py_round_div (a b : Z) :
  0 < b ->
  2 * a - b <= 2 * b * py_round (inject_Z a / inject_Z b) /\
  2 * b * py_round (inject_Z a / inject_Z b) <= 2 * a + b.
Proof.
  intros Hb.
  destruct (py_round_near (inject_Z a / inject_Z b)) as [Hlo Hhi].
  pose proof (Qdiv_inject_mult a b Hb) as Hm.
  assert (HB : (0 < inject_Z b)%Q) by (unfold Qlt; simpl; lia).
  set (r := py_round (inject_Z a / inject_Z b)) in *.
  set (X := (inject_Z a / inject_Z b)%Q) in *.
  split; rewrite Zle_Qle; unfold Z.sub;
    rewrite ?inject_Z_plus, ?inject_Z_opp, ?inject_Z_mult;
    change (inject_Z 2) with 2%Q; nra.
Qed.

(** [int] of a quotient of non-negative integers is the integer quotient. *)
Lemma py_int_div (a b : Z) :
  0 <= a -> 0 < b -> py_int (inject_Z a / inject_Z b) = a / b.
Proof.
  intros Ha Hb. destruct b as [|p|p]; try lia.
  unfold py_int, Qdiv, Qinv, Qmult, inject_Z. simpl.
  rewrite Z.mul_1_r. apply Z.quot_div_nonneg; lia.
Qed.

(** ** Resizer *)

(** The test of line 105 on integers. *)
Lemma cap_applies_iff (width height size max_size : Z) :
  0 < width -> 0 < height ->
  Resizer.cap_applies width height size max_size <->
  max_size * Z.min width height < Z.max width height * size.
Proof.
  intros Hw Hh. unfold Resizer.cap_applies.
  assert (Hm : 0 < Z.min width height) by lia.
  pose proof (Qdiv_inject_mult (Z.max width height) (Z.min width height) Hm) as Hd.
  assert (HB : (0 < inject_Z (Z.min width height))%Q) by (unfold Qlt; simpl; lia).
  set (X := (inject_Z (Z.max width height) / inject_Z (Z.min width height))%Q) in *.
  rewrite Zlt_Qlt, !inject_Z_mult. split; intros H; nra.
Qed.

(** C9. For positive [width] and [height] and a scalar short-edge target
    [size]: if the shorter edge already equals [size] and the [max_size] cap
    does not apply (there is no cap, or the test of line 105 is false), the
    Resizer computes the input dimensions unchanged:
    [get_size_with_aspect_ratio] returns [(height, width)] and [get_size]
    the pair [(width, height)] it was given. *)
Theorem resizer_exact_match_is_identity (width height size : Z) (max_size : option Z) :
  0 < width -> 0 < height ->
  Z.min width height = size ->
  (forall cap, max_size = Some cap -> ~ Resizer.cap_applies width height size cap) ->
  Resizer.get_size_with_aspect_ratio (width, height) size max_size = Ok (height, width) /\
  Resizer.get_size (width, height) (Resizer.SizeInt size) max_size = Ok (width, height).
Proof.
  intros Hw Hh Hmin Hcap.
  assert (Hgs : Resizer.get_size_with_aspect_ratio (width, height) size max_size
                = Ok (height, width)).
  { unfold Resizer.get_size_with_aspect_ratio.
    assert (Hshort : (width <=? height) && (width =? size)
                     || (height <=? width) && (height =? size) = true).
    { apply orb_true_iff. rewrite !andb_true_iff, !Z.leb_le, !Z.eqb_eq. lia. }
    destruct max_size as [cap|]; simpl.
    - rewrite py_truediv_inject by lia. simpl.
      specialize (Hcap cap eq_refl). unfold Resizer.cap_applies in Hcap.
      apply Qlt_bool_false_iff in Hcap. rewrite Hcap. simpl.
      now rewrite Hshort.
    - now rewrite Hshort. }
  split; [exact Hgs|].
  unfold Resizer.get_size. now rewrite Hgs.
Qed.

Lemma resizer_exact_match_is_identity_witness :
  Resizer.get_size_with_aspect_ratio (480, 640) 480 (Some 1333) = Ok (640, 480) /\
  Resizer.get_size (480, 640) (Resizer.SizeInt 480) (Some 1333) = Ok (480, 640).
Proof.
  apply (resizer_exact_match_is_identity 480 640 480 (Some 1333)).
  - lia.
  - lia.
  - reflexivity.
  - intros cap Hcap. injection Hcap as <-.
    unfold Resizer.cap_applies. vm_compute. discriminate.
Defined.

(** C8 at a failing input. A 311 x 1000 image with the defaults [size = 800]
    and [max_size = 1333]: the test of line 105 holds, line 106 sets the
    target to [round(1333 * 311 / 1000) = round(414.563) = 415], and line 113
    computes the longer edge [int(415 * 1000 / 311) = 1334]. The code
    returns [(1334, 415)]: the longer edge is not [max_size], and it exceeds
    it, although the docstring of the class (lines 65-67) calls [max_size]
    the largest size an image dimension can have. *)
Theorem resizer_exceeds_max_size :
  Resizer.cap_applies 311 1000 800 1333 /\
  exists oh ow,
    Resizer.get_size_with_aspect_ratio (311, 1000) 800 (Some 1333) = Ok (oh, ow) /\
    Resizer.get_size (311, 1000) (Resizer.SizeInt 800) (Some 1333) = Ok (ow, oh) /\
    (oh, ow) = (1334, 415) /\
    Z.max oh ow <> 1333 /\
    1333 < Z.max oh ow.
Proof.
  split.
  - apply cap_applies_iff; lia.
  - exists 1334, 415. repeat split; try reflexivity; lia.
Qed.

(** The longer edge can also stay under the cap: for a 3 x 7 image, target
    100 and cap 10 the test of line 105 holds, the target becomes
    [round(30 / 7) = 4] and the longer edge [int(28 / 3) = 9], not 10. *)
Lemma resizer_cap_not_exact :
  ~ (forall width height size max_size oh ow : Z,
       0 < width -> 0 < height -> 0 < size -> 0 < max_size ->
       Resizer.cap_applies width height size max_size ->
       Resizer.get_size_with_aspect_ratio (width, height) size (Some max_size)
         = Ok (oh, ow) ->
       Z.max oh ow = max_size).
Proof.
  intros H.
  specialize (H 3 7 100 10 9 4).
  assert (Hcap : Resizer.cap_applies 3 7 100 10) by (apply cap_applies_iff; lia).
  specialize (H ltac:(lia) ltac:(lia) ltac:(lia) ltac:(lia) Hcap eq_refl).
  discriminate H.
Qed.

(** ** Filtering of the queries *)

Lemma bool_index_zip3 {A B C : Type} (keep : A * B * C -> bool)
    (a : list A) (b : list B) (c : list C) :
  length a = length b -> length b = length c ->
  let flags := map keep (zip3 a b c) in
  let kept := List.filter keep (zip3 a b c) in
  Merger.bool_index a flags = map (fun q => fst (fst q)) kept /\
  Merger.bool_index b flags = map (fun q => snd (fst q)) kept /\
  Merger.bool_index c flags = map snd kept.
Proof.
  revert b c. induction a as [|x a IH]; intros [|y b] [|z c] Hab Hbc;
    simpl in Hab, Hbc; try discriminate.
  - repeat split.
  - injection Hab as Hab. injection Hbc as Hbc.
    destruct (IH b c Hab Hbc) as (Ha & Hb & Hc).
    unfold zip3 in *. simpl. destruct (keep (x, y, z)); simpl;
      rewrite Ha, Hb, Hc; repeat split.
Qed.

Lemma to_keep_is_map (thr : Q) (nl : nat)
    (masks : list (array2 Q)) (scores : list Q) (labels : list nat) :
  length masks = length scores -> length scores = length labels ->
  zip_with (fun l s => negb (l =? nl)%nat && Qlt_bool thr s) labels scores
  = map (fun q => negb (Spec.discards thr nl q)) (zip3 masks scores labels).
Proof.
  revert scores labels. induction masks as [|m masks IH]; intros [|s scores] [|l labels] H1 H2;
    simpl in H1, H2; try discriminate; [reflexivity|].
  injection H1 as H1. injection H2 as H2.
  unfold zip3 in *. simpl. rewrite (IH scores labels H1 H2).
  f_equal. unfold Qlt_bool. now rewrite negb_orb.
Qed.

(** The two outcomes of [remove_low_and_no_objects]. *)
Lemma remove_low_cases (masks : list (array2 Q)) (scores : list Q) (labels : list nat)
    (object_mask_threshold : Q) (num_labels : nat) :
  let kept := Spec.filtering object_mask_threshold num_labels (zip3 masks scores labels) in
  (length masks = length scores /\ length scores = length labels /\
   Merger.remove_low_and_no_objects masks scores labels object_mask_threshold num_labels
   = Ok (map (fun q => fst (fst q)) kept, map (fun q => snd (fst q)) kept, map snd kept)) \/
  (~ (length masks = length scores /\ length scores = length labels) /\
   Merger.remove_low_and_no_objects masks scores labels object_mask_threshold num_labels
   = Raise (ValueError "mask, scores and labels must have the same shape!")).
Proof.
  intros kept. unfold Merger.remove_low_and_no_objects.
  destruct (length masks =? length scores)%nat eqn:E1;
    destruct (length scores =? length labels)%nat eqn:E2; simpl;
    try (right; split; [|reflexivity];
         apply Nat.eqb_neq in E1 || apply Nat.eqb_neq in E2; tauto).
  apply Nat.eqb_eq in E1, E2. left. split; [exact E1|]. split; [exact E2|].
  rewrite (to_keep_is_map _ _ masks) by assumption.
  destruct (bool_index_zip3
              (fun q => negb (Spec.discards object_mask_threshold num_labels q))
              masks scores labels E1 E2) as (Ha & Hb & Hc).
  unfold kept, Spec.filtering. now rewrite Ha, Hb, Hc.
Qed.

(** C10. [remove_low_and_no_objects] raises exactly when the leading
    dimensions of [masks], [scores] and [labels] are not all equal, and what
    it raises is the [ValueError]; otherwise it returns the entries of the
    three tensors, in their order, of the queries that the specification's
    filtering keeps: those whose label is not the null class [num_labels] and
    whose score is strictly above the threshold. *)
Theorem remove_low_and_no_objects_filters
    (masks : list (array2 Q)) (scores : list Q) (labels : list nat)
    (object_mask_threshold : Q) (num_labels : nat) :
  let r := Merger.remove_low_and_no_objects masks scores labels
             object_mask_threshold num_labels in
  let kept := Spec.filtering object_mask_threshold num_labels (zip3 masks scores labels) in
  (r = Raise (ValueError "mask, scores and labels must have the same shape!") <->
   ~ (length masks = length scores /\ length scores = length labels)) /\
  (forall e, r = Raise e ->
     e = ValueError "mask, scores and labels must have the same shape!") /\
  (length masks = length scores /\ length scores = length labels ->
   r = Ok (map (fun q => fst (fst q)) kept, map (fun q => snd (fst q)) kept, map snd kept)) /\
  (forall m s l, In (m, s, l) kept <->
     In (m, s, l) (zip3 masks scores labels) /\ l <> num_labels /\
     (object_mask_threshold < s)%Q).
Proof.
  intros r kept.
  assert (Hok : length masks = length scores /\ length scores = length labels ->
    r = Ok (map (fun q => fst (fst q)) kept, map (fun q => snd (fst q)) kept, map snd kept)).
  { intros [H1 H2]. unfold r, Merger.remove_low_and_no_objects.
    rewrite H1, H2, !Nat.eqb_refl. simpl.
    rewrite (to_keep_is_map _ _ masks) by assumption.
    destruct (bool_index_zip3
                (fun q => negb (Spec.discards object_mask_threshold num_labels q))
                masks scores labels H1 H2) as (Ha & Hb & Hc).
    unfold kept, Spec.filtering. now rewrite Ha, Hb, Hc. }
  assert (Hbad : ~ (length masks = length scores /\ length scores = length labels) ->
    r = Raise (ValueError "mask, scores and labels must have the same shape!")).
  { intros Hne. unfold r, Merger.remove_low_and_no_objects.
    destruct (length masks =? length scores)%nat eqn:E1;
      destruct (length scores =? length labels)%nat eqn:E2; simpl; try reflexivity.
    apply Nat.eqb_eq in E1, E2. tauto. }
  assert (Hdec : (length masks = length scores /\ length scores = length labels) \/
                 ~ (length masks = length scores /\ length scores = length labels)) by lia.
  split; [|split; [|split]].
  - split.
    + intros Hr [H1 H2]. rewrite (Hok (conj H1 H2)) in Hr. discriminate.
    + exact Hbad.
  - intros e He. destruct Hdec as [H|H].
    + rewrite (Hok H) in He. discriminate.
    + rewrite (Hbad H) in He. now injection He as <-.
  - exact Hok.
  - intros m s l. unfold kept, Spec.filtering. rewrite filter_In.
    unfold Spec.discards. rewrite negb_true_iff, orb_false_iff, Nat.eqb_neq.
    rewrite <- Qlt_bool_iff. unfold Qlt_bool. rewrite negb_true_iff. tauto.
Qed.

Lemma remove_low_and_no_objects_filters_witness :
  Merger.remove_low_and_no_objects
    [[[1 # 2]]; [[1 # 3]]; [[1 # 4]]] [9 # 10; 1 # 2; 95 # 100] [0; 1; 2]%nat (8 # 10) 2
  = Ok ([[[1 # 2]]], [9 # 10], [0%nat]).
Proof.
  apply (proj1 (proj2 (proj2
    (remove_low_and_no_objects_filters
       [[[1 # 2]]; [[1 # 3]]; [[1 # 4]]] [9 # 10; 1 # 2; 95 # 100] [0; 1; 2]%nat
       (8 # 10) 2)))).
  split; reflexivity.
Defined.

(** ** Panoptic Merger *)

Lemma filter_nil_of_all_false {A : Type} (f : A -> bool) (l : list A) :
  (forall x, In x l -> f x = false) -> List.filter f l = [].
Proof.
  induction l as [|x l IH]; intros H; [reflexivity|].
  simpl. rewrite (H x (or_introl eq_refl)). apply IH.
  intros y Hy. apply H. now right.
Qed.

(** C1, what the code does instead. For a batch of one image in which every
    query is discarded by the filtering (its class is the null class or its
    score is at most the threshold), [post_process_panoptic_segmentation]
    returns the empty list: the only [results.append], line 523, sits in the
    loop over the surviving queries, so this image gets no result at all,
    neither the all-zero map nor the empty segment list. *)
Theorem no_surviving_query_gives_no_result
    (classes : list ClassSpec) (outputs : decoded_outputs)
    (object_mask_threshold overlap_mask_area_threshold : Q)
    (masks : list (array2 Q)) (scores : list Q) (labels : list nat) :
  mask_probs outputs = [masks] ->
  pred_scores outputs = [scores] ->
  pred_labels outputs = [labels] ->
  length masks = length scores -> length scores = length labels ->
  (forall m s l, In (m, s, l) (zip3 masks scores labels) ->
     l = num_labels outputs \/ (s <= object_mask_threshold)%Q) ->
  Merger.post_process_panoptic_segmentation classes outputs
    object_mask_threshold overlap_mask_area_threshold = Ok [].
Proof.
  intros Hm Hs Hl H1 H2 Hall.
  unfold Merger.post_process_panoptic_segmentation.
  rewrite Hm, Hs, Hl. unfold zip3 at 1. simpl.
  destruct (remove_low_cases masks scores labels
              object_mask_threshold (num_labels outputs)) as [(_ & _ & Hok)|[Hne _]];
    [|tauto].
  rewrite Hok.
  assert (Hnil : Spec.filtering object_mask_threshold (num_labels outputs)
                   (zip3 masks scores labels) = []).
  { apply filter_nil_of_all_false. intros [[m s] l] Hin.
    apply negb_false_iff. unfold Spec.discards.
    destruct (Hall m s l Hin) as [-> | Hle].
    - now rewrite Nat.eqb_refl.
    - apply Qle_bool_iff in Hle. rewrite Hle. apply orb_true_r. }
  rewrite Hnil. reflexivity.
Qed.

(** The end-to-end example of the specification: one query of score 0.5
    under the threshold 0.8. *)
Lemma no_surviving_query_gives_no_result_witness :
  Merger.post_process_panoptic_segmentation
    [{| is_thing := false; label := "sky" |}]
    {| num_labels := 1; height := 1; width := 2;
       pred_scores := [[1 # 2]]; pred_labels := [[0%nat]];
       mask_probs := [[[[9 # 10; 9 # 10]]]] |}
    (8 # 10) (8 # 10) = Ok [].
Proof.
  apply (no_surviving_query_gives_no_result _ _ _ _
           [[[9 # 10; 9 # 10]]] [1 # 2] [0%nat]); try reflexivity.
  intros m s l Hin. simpl in Hin. destruct Hin as [Heq | []].
  injection Heq as _ <- _. right. vm_compute. discriminate.
Defined.

(** *** How many results an image gets *)

Lemma merge_step_results (classes : list ClassSpec) (threshold : Q)
    (mask_probs : list (array2 Q)) (mask_labels : array2 nat) (pred_labels : list nat)
    (addr : nat) (st st' : Merger.loop_state) (k : nat) :
  Merger.merge_step classes threshold mask_probs mask_labels pred_labels addr st k = Ok st' ->
  Merger.results st' = Merger.results st ++ [addr].
Proof.
  unfold Merger.merge_step.
  destruct (classes !! nth k pred_labels 0%nat) as [spec|]; simpl; [|discriminate].
  intros H. injection H as <-. simpl.
  destruct (_ && _); [|reflexivity].
  destruct (Qlt_bool _ _); reflexivity.
Qed.

Lemma merge_loop_results (classes : list ClassSpec) (threshold : Q)
    (mask_probs : list (array2 Q)) (mask_labels : array2 nat) (pred_labels : list nat)
    (addr : nat) (ks : list nat) (st st' : Merger.loop_state) :
  foldM (Merger.merge_step classes threshold mask_probs mask_labels pred_labels addr) ks st
    = Ok st' ->
  Merger.results st' = Merger.results st ++ repeat addr (length ks).
Proof.
  revert st. induction ks as [|k ks IH]; intros st; simpl.
  - intros H. injection H as <-. now rewrite app_nil_r.
  - destruct (Merger.merge_step _ _ _ _ _ _ st k) as [st1|e] eqn:Hstep; simpl; [|discriminate].
    intros H. rewrite (IH _ H), (merge_step_results _ _ _ _ _ _ _ _ _ Hstep).
    now rewrite <- app_assoc.
Qed.

(** One image adds one object to the store and one reference to it for
    each surviving query. *)
Lemma merge_image_store (classes : list ClassSpec) (height width num_labels : nat)
    (object_mask_threshold overlap_mask_area_threshold : Q)
    (st st' : Merger.store) (item : list (array2 Q) * list Q * list nat) :
  Merger.merge_image classes height width num_labels
    object_mask_threshold overlap_mask_area_threshold st item = Ok st' ->
  exists obj,
    Merger.objects st' = Merger.objects st ++ [obj] /\
    Merger.refs st' = Merger.refs st
      ++ repeat (length (Merger.objects st)) (survivors object_mask_threshold num_labels item).
Proof.
  destruct item as [[masks scores] labels]. unfold Merger.merge_image, survivors.
  destruct (remove_low_cases masks scores labels object_mask_threshold num_labels)
    as [(_ & _ & ->)|(_ & ->)]; simpl; [|discriminate].
  set (kept := Spec.filtering object_mask_threshold num_labels (zip3 masks scores labels)).
  rewrite !length_map.
  destruct (0 <? length kept)%nat eqn:Hdetect.
  - destruct (foldM _ _ _) as [final|e] eqn:Hloop; simpl; [|discriminate].
    intros H. injection H as <-. simpl. exists (Merger.cur final). split; [reflexivity|].
    apply merge_loop_results in Hloop. simpl in Hloop.
    now rewrite Hloop, length_seq.
  - intros H. injection H as <-. simpl. eexists. split; [reflexivity|].
    apply Nat.ltb_ge in Hdetect.
    assert (Hz : length kept = 0%nat) by lia.
    rewrite Hz. simpl. now rewrite app_nil_r.
Qed.

Lemma merge_batch_store (classes : list ClassSpec) (height width num_labels : nat)
    (object_mask_threshold overlap_mask_area_threshold : Q)
    (items : list (list (array2 Q) * list Q * list nat)) (st st' : Merger.store) :
  foldM (Merger.merge_image classes height width num_labels
           object_mask_threshold overlap_mask_area_threshold) items st = Ok st' ->
  exists objs,
    length objs = length items /\
    Merger.objects st' = Merger.objects st ++ objs /\
    Merger.refs st' = Merger.refs st
      ++ refs_of (length (Merger.objects st))
           (map (survivors object_mask_threshold num_labels) items).
Proof.
  revert st. induction items as [|item items IH]; intros st; simpl.
  - intros H. injection H as <-. exists []. now rewrite !app_nil_r.
  - destruct (Merger.merge_image _ _ _ _ _ _ st item) as [st1|e] eqn:Himg;
      simpl; [|discriminate].
    intros H. destruct (IH _ H) as (objs & Hlen & Hobjs & Hrefs).
    destruct (merge_image_store _ _ _ _ _ _ _ _ _ Himg) as (obj & Ho1 & Hr1).
    exists (obj :: objs). split; [simpl; lia|]. split.
    + rewrite Hobjs, Ho1. now rewrite <- app_assoc.
    + rewrite Hrefs, Hr1, Ho1, length_app. simpl.
      unfold refs_of. simpl. rewrite <- app_assoc. do 3 f_equal.
      now rewrite Nat.add_1_r.
Qed.

Lemma omap_repeat {A B : Type} (f : A -> option B) (a : A) (b : B) (n : nat) :
  f a = Some b -> omap f (repeat a n) = repeat b n.
Proof.
  intros H. induction n as [|n IH]; [reflexivity|].
  change (repeat a (S n)) with (a :: repeat a n).
  change (repeat b (S n)) with (b :: repeat b n).
  cbn [omap list_omap]. now rewrite H, IH.
Qed.

Lemma deref_refs_of (before objs : list panoptic_result) (counts : list nat) :
  length objs = length counts ->
  omap (fun addr => (before ++ objs) !! addr) (refs_of (length before) counts)
  = flat_map (fun '(obj, n) => repeat obj n) (combine objs counts).
Proof.
  revert before counts. induction objs as [|obj objs IH]; intros before [|n counts] Hlen;
    simpl in Hlen; try discriminate; [reflexivity|].
  injection Hlen as Hlen. unfold refs_of. simpl.
  rewrite omap_app. f_equal.
  - apply omap_repeat. rewrite lookup_app_r, Nat.sub_diag by lia. reflexivity.
  - specialize (IH (before ++ [obj]) counts Hlen).
    rewrite <- app_assoc, length_app, Nat.add_1_r in IH. exact IH.
Qed.

(** When [post_process_panoptic_segmentation] returns, its list holds, for
    each image in turn, as many entries as the image has surviving queries,
    all of them the one object of that image. *)
Lemma results_follow_surviving_queries (classes : list ClassSpec)
    (outputs : decoded_outputs)
    (object_mask_threshold overlap_mask_area_threshold : Q)
    (rs : list panoptic_result) :
  Merger.post_process_panoptic_segmentation classes outputs
    object_mask_threshold overlap_mask_area_threshold = Ok rs ->
  let items := zip3 (mask_probs outputs) (pred_scores outputs) (pred_labels outputs) in
  exists objs,
    length objs = length items /\
    rs = flat_map (fun '(obj, n) => repeat obj n)
           (combine objs (map (survivors object_mask_threshold (num_labels outputs)) items)).
Proof.
  unfold Merger.post_process_panoptic_segmentation.
  destruct (foldM _ _ _) as [final|e] eqn:Hfold; simpl; [|discriminate].
  intros H. injection H as <-.
  destruct (merge_batch_store _ _ _ _ _ _ _ _ _ Hfold) as (objs & Hlen & Hobjs & Hrefs).
  simpl in Hobjs, Hrefs. exists objs. split; [exact Hlen|].
  rewrite Hrefs, Hobjs.
  apply (deref_refs_of [] objs). now rewrite length_map.
Qed.

(** *** What holds of the emitted ids *)

Lemma In_zip_with_cells (v : Z) (row : list Z) (flags : list bool) (cell : Z) :
  In cell (zip_with (fun cell (b : bool) => if b then v else cell) row flags) ->
  cell = v \/ In cell row.
Proof.
  revert flags. induction row as [|x row IH]; intros [|b flags]; simpl; try tauto.
  intros [H|H].
  - destruct b; subst; auto.
  - destruct (IH flags H); auto.
Qed.

Lemma In_masked_assign (segmentation : array2 Z) (mask_k : array2 bool) (v : Z)
    (row : list Z) (cell : Z) :
  In row (Merger.masked_assign segmentation mask_k v) -> In cell row ->
  cell = v \/ exists row0, In row0 segmentation /\ In cell row0.
Proof.
  unfold Merger.masked_assign. revert mask_k.
  induction segmentation as [|r0 seg IH]; intros [|m mask_k]; simpl; try tauto.
  intros [H|H] Hcell.
  - subst row. destruct (In_zip_with_cells _ _ _ _ Hcell); eauto.
  - destruct (IH mask_k H Hcell) as [|(row0 & Hr & Hc)]; eauto.
Qed.

Lemma merge_step_invariant (classes : list ClassSpec) (threshold : Q)
    (mask_probs : list (array2 Q)) (mask_labels : array2 nat) (pred_labels : list nat)
    (addr : nat) (st st' : Merger.loop_state) (k : nat) :
  loop_invariant st ->
  Merger.merge_step classes threshold mask_probs mask_labels pred_labels addr st k = Ok st' ->
  loop_invariant st'.
Proof.
  intros (Hid & Hmem & Hpos & Hcov). unfold Merger.merge_step.
  destruct (classes !! nth k pred_labels 0%nat) as [spec|]; simpl; [|discriminate].
  intros H. injection H as <-. unfold loop_invariant. simpl.
  destruct (_ && _); [|repeat split; assumption].
  destruct (Qlt_bool _ _); [|repeat split; assumption].
  simpl.
  set (sid := match Merger.stuff_memory_list st !! nth k pred_labels 0%nat with
              | Some sid => sid
              | None => Merger.current_segment_id st + 1
              end).
  assert (Hsid : 0 < sid).
  { unfold sid. destruct (Merger.stuff_memory_list st !! _) as [s|] eqn:E.
    - exact (Hmem _ _ E).
    - lia. }
  split; [lia|]. split; [|split].
  - intros c s. destruct (negb (is_thing spec)); [|apply Hmem].
    destruct (decide (nth k pred_labels 0%nat = c)) as [->|Hne].
    + rewrite lookup_insert_eq. intros [= <-]. exact Hsid.
    + rewrite lookup_insert_ne by assumption. apply Hmem.
  - apply Forall_app. split; [exact Hpos|]. constructor; [exact Hsid|constructor].
  - intros row cell Hrow Hcell.
    destruct (In_masked_assign _ _ _ _ _ Hrow Hcell) as [->|(row0 & Hr & Hc)].
    + right. eexists. split; [apply in_or_app; right; left; reflexivity|reflexivity].
    + destruct (Hcov row0 cell Hr Hc) as [->|(s & Hs & <-)]; [now left|].
      right. exists s. split; [apply in_or_app; now left|reflexivity].
Qed.

Lemma merge_loop_invariant (classes : list ClassSpec) (threshold : Q)
    (mask_probs : list (array2 Q)) (mask_labels : array2 nat) (pred_labels : list nat)
    (addr : nat) (ks : list nat) (st st' : Merger.loop_state) :
  loop_invariant st ->
  foldM (Merger.merge_step classes threshold mask_probs mask_labels pred_labels addr) ks st
    = Ok st' ->
  loop_invariant st'.
Proof.
  revert st. induction ks as [|k ks IH]; intros st Hinv; simpl.
  - intros H. now injection H as <-.
  - destruct (Merger.merge_step _ _ _ _ _ _ st k) as [st1|e] eqn:Hstep; simpl; [|discriminate].
    apply IH. exact (merge_step_invariant _ _ _ _ _ _ _ _ _ Hinv Hstep).
Qed.

Lemma zeros_covered (height width : nat) :
  covered {| segmentation := zeros2 0 height width; segments := [] |}.
Proof.
  split; [constructor|]. simpl. intros row cell Hrow Hcell. left.
  unfold zeros2 in Hrow. apply repeat_spec in Hrow. subst row.
  now apply repeat_spec in Hcell.
Qed.

Lemma merge_image_covered (classes : list ClassSpec) (height width num_labels : nat)
    (object_mask_threshold overlap_mask_area_threshold : Q)
    (st st' : Merger.store) (item : list (array2 Q) * list Q * list nat) :
  Forall covered (Merger.objects st) ->
  Merger.merge_image classes height width num_labels
    object_mask_threshold overlap_mask_area_threshold st item = Ok st' ->
  Forall covered (Merger.objects st').
Proof.
  intros Hall. destruct item as [[masks scores] labels]. unfold Merger.merge_image.
  destruct (Merger.remove_low_and_no_objects _ _ _ _ _) as [[[ms ss] ls]|e];
    simpl; [|discriminate].
  destruct (0 <? length ms)%nat.
  - destruct (foldM _ _ _) as [final|e] eqn:Hloop; simpl; [|discriminate].
    intros H. injection H as <-. simpl. apply Forall_app. split; [exact Hall|].
    constructor; [|constructor].
    apply merge_loop_invariant in Hloop; [apply Hloop|].
    split; [simpl; lia|]. split; [|apply zeros_covered].
    simpl. intros c sid H. now rewrite lookup_empty in H.
  - intros H. injection H as <-. simpl. apply Forall_app. split; [exact Hall|].
    constructor; [apply zeros_covered|constructor].
Qed.

Lemma merge_batch_covered (classes : list ClassSpec) (height width num_labels : nat)
    (object_mask_threshold overlap_mask_area_threshold : Q)
    (items : list (list (array2 Q) * list Q * list nat)) (st st' : Merger.store) :
  Forall covered (Merger.objects st) ->
  foldM (Merger.merge_image classes height width num_labels
           object_mask_threshold overlap_mask_area_threshold) items st = Ok st' ->
  Forall covered (Merger.objects st').
Proof.
  revert st. induction items as [|item items IH]; intros st Hst; simpl.
  - intros H. now injection H as <-.
  - destruct (Merger.merge_image _ _ _ _ _ _ st item) as [st1|e] eqn:Himg;
      simpl; [|discriminate].
    apply IH. exact (merge_image_covered _ _ _ _ _ _ _ _ _ Hst Himg).
Qed.

(** The part of C3 that the code keeps: in every result all emitted ids
    are positive, and every nonzero cell of the map is the id of an emitted
    segment. *)
Lemma results_are_covered (classes : list ClassSpec) (outputs : decoded_outputs)
    (object_mask_threshold overlap_mask_area_threshold : Q)
    (rs : list panoptic_result) :
  Merger.post_process_panoptic_segmentation classes outputs
    object_mask_threshold overlap_mask_area_threshold = Ok rs ->
  Forall covered rs.
Proof.
  unfold Merger.post_process_panoptic_segmentation.
  destruct (foldM _ _ _) as [final|e] eqn:Hfold; simpl; [|discriminate].
  intros H. injection H as <-.
  apply merge_batch_covered in Hfold; [|constructor].
  rewrite Forall_forall in Hfold. apply Forall_forall. intros r Hr.
  apply list_elem_of_omap in Hr as (addr & _ & Hlook).
  apply Hfold. exact (list_elem_of_lookup_2 _ _ _ Hlook).
Qed.

(** C2 at a failing input. Two queries of score 0.9 predict the stuff class
    0 ("sky") and own one pixel each of a 1 x 2 grid; both are accepted. The
    map holds both pixels under the id 1, and the segment list holds two
    records for the class, both with the id 1: line 512 appends a record
    also when line 507 reuses the id of the class. *)
Theorem stuff_merge_appends_second_record :
  let sky := {| seg_id := 1; seg_category_id := 0; seg_is_thing := false;
                seg_label := "sky" |} in
  let r := {| segmentation := [[1; 1]]; segments := [sky; sky] |} in
  Merger.post_process_panoptic_segmentation
    [{| is_thing := false; label := "sky" |}]
    {| num_labels := 1; height := 1; width := 2;
       pred_scores := [[9 # 10; 9 # 10]]; pred_labels := [[0; 0]]%nat;
       mask_probs := [[[[1; 0]]; [[0; 1]]]]%Q |}
    (8 # 10) (8 # 10) = Ok [r; r] /\
  length (List.filter (fun s => (seg_category_id s =? 0)%nat) (segments r)) = 2%nat.
Proof. split; vm_compute; reflexivity. Qed.

(** C3 at a failing input. Four queries of score 0.9 own one pixel each of a
    1 x 4 grid and predict sky (stuff), cat (thing), sky, cat. Line 507 sets
    the counter back to the id of sky, so the second cat gets the id 2 of the
    first: the emitted ids are 1, 2, 1, 2, and the map cannot tell the two
    cats apart. *)
Theorem segment_ids_repeat :
  let sky := {| seg_id := 1; seg_category_id := 0; seg_is_thing := false;
                seg_label := "sky" |} in
  let cat := {| seg_id := 2; seg_category_id := 1; seg_is_thing := true;
                seg_label := "cat" |} in
  let r := {| segmentation := [[1; 2; 1; 2]]; segments := [sky; cat; sky; cat] |} in
  Merger.post_process_panoptic_segmentation
    [{| is_thing := false; label := "sky" |}; {| is_thing := true; label := "cat" |}]
    {| num_labels := 2; height := 1; width := 4;
       pred_scores := [[9 # 10; 9 # 10; 9 # 10; 9 # 10]];
       pred_labels := [[0; 1; 0; 1]]%nat;
       mask_probs := [[[[1; 0; 0; 0]]; [[0; 1; 0; 0]]; [[0; 0; 1; 0]]; [[0; 0; 0; 1]]]]%Q |}
    (8 # 10) (8 # 10) = Ok [r; r; r; r] /\
  ~ List.NoDup (map seg_id (segments r)).
Proof.
  split; [vm_compute; reflexivity|].
  simpl. intros H. inversion H as [|x l Hnotin _]; subst.
  apply Hnotin. simpl. auto.
Qed.

Lemma length_filter_map {A B : Type} (f : A -> B) (g : B -> bool) (l : list A) :
  length (List.filter g (map f l)) = length (List.filter (fun x => g (f x)) l).
Proof.
  induction l as [|x l IH]; [reflexivity|].
  simpl. destruct (g (f x)); simpl; now rewrite IH.
Qed.

Lemma original_area_is_rawArea (mask_probs : list (array2 Q)) (k : nat) (plane : array2 Q) :
  mask_probs !! k = Some plane ->
  Merger.original_area mask_probs k = Spec.rawArea plane.
Proof.
  intros Hk. unfold Merger.original_area, Spec.rawArea, Merger.count_true.
  rewrite (nth_lookup_Some _ _ _ _ Hk). f_equal.
  rewrite <- concat_map. apply (length_filter_map _ (fun b : bool => b)).
Qed.

Lemma scale_by_scores_lookup (mask_probs : list (array2 Q)) (pred_scores : list Q)
    (k : nat) (plane : array2 Q) (score : Q) :
  mask_probs !! k = Some plane -> pred_scores !! k = Some score ->
  Merger.scale_by_scores mask_probs pred_scores !! k
  = Some (map (map (fun p => (p * score)%Q)) plane).
Proof.
  intros Hm Hs. unfold Merger.scale_by_scores.
  apply lookup_zip_with_Some. now exists plane, score.
Qed.

(** What line 495 counts for the surviving query [k]: the pixels whose
    score-scaled mask probability, the sigmoid probability multiplied by the
    predicted score of the query, is at least 0.5. The loop reads the tensor
    [scale_by_scores mask_probs pred_scores] of line 478. *)
Lemma original_area_counts_scaled_probabilities
    (mask_probs : list (array2 Q)) (pred_scores : list Q)
    (k : nat) (plane : array2 Q) (score : Q) :
  mask_probs !! k = Some plane -> pred_scores !! k = Some score ->
  Merger.original_area (Merger.scale_by_scores mask_probs pred_scores) k
  = Z.of_nat (length (List.filter (fun p => Qle_bool (1 # 2) (p * score)%Q) (concat plane))).
Proof.
  intros Hm Hs.
  rewrite (original_area_is_rawArea _ _ _ (scale_by_scores_lookup _ _ _ _ _ Hm Hs)).
  unfold Spec.rawArea. f_equal.
  rewrite <- concat_map. apply length_filter_map.
Qed.

(** C4 at a failing input. One query of score 0.81 with mask probability
    0.6 on the single pixel of a 1 x 1 grid survives the filtering and wins
    the pixel. The support of its unscaled mask has one pixel, so with the
    [rawArea] of the claim the overlap ratio is 1 and the query is accepted.
    Line 495 reads the tensor that line 478 has scaled in place, where the
    pixel holds 0.486: [original_area] is 0 and no segment is emitted. *)
Theorem original_area_reads_scaled_tensor :
  let masks : list (array2 Q) := [[[6 # 10]]] in
  let scores : list Q := [81 # 100] in
  Merger.remove_low_and_no_objects masks scores [0%nat] (8 # 10) 1
    = Ok (masks, scores, [0%nat]) /\
  Spec.rawArea (nth 0 masks []) = 1 /\
  Merger.original_area (Merger.scale_by_scores masks scores) 0 = 0 /\
  Merger.post_process_panoptic_segmentation
    [{| is_thing := true; label := "cat" |}]
    {| num_labels := 1; height := 1; width := 1;
       pred_scores := [scores]; pred_labels := [[0%nat]]; mask_probs := [masks] |}
    (8 # 10) (8 # 10)
  = Ok [{| segmentation := [[0]]; segments := [] |}].
Proof. repeat split; vm_compute; congruence. Qed.

(** ** Batch Packer *)

Lemma overlay_self {A : Type} (f : A -> A -> A) (l : list A) :
  (forall x, In x l -> f x x = x) -> overlay f l l = l.
Proof.
  induction l as [|x l IH]; intros H; [reflexivity|].
  simpl. rewrite (H x (or_introl eq_refl)). f_equal.
  apply IH. intros y Hy. apply H. now right.
Qed.

(** Line 348 leaves [padded_masks] as [np.zeros] made it, for any [masks]. *)
Lemma padded_masks_stay_zero (n height width : nat) :
  assign_prefix3 (np_zeros false n height width) (np_zeros false n height width)
  = np_zeros false n height width.
Proof.
  unfold assign_prefix3, np_zeros. simpl. f_equal.
  apply overlay_self. intros plane _.
  apply overlay_self. intros row _.
  apply overlay_self. reflexivity.
Qed.

(** [_max_by_axis] on the shapes of a non-empty batch: the maximum of each
    of the three axes. *)
Lemma _max_by_axis_shapes {A : Type} (first : ndarray A) (rest : list (ndarray A)) :
  Packer._max_by_axis (map shape_list (first :: rest))
  = Ok [fold_left Nat.max (map (fun a => (shape a).1.1) rest) (shape first).1.1;
        fold_left Nat.max (map (fun a => (shape a).1.2) rest) (shape first).1.2;
        fold_left Nat.max (map (fun a => (shape a).2) rest) (shape first).2].
Proof.
  unfold Packer._max_by_axis, shape_list. simpl.
  destruct (shape first) as [[c h] w]. simpl.
  revert c h w. induction rest as [|a rest IH]; intros c h w; [reflexivity|].
  simpl. destruct (shape a) as [[c' h'] w']. simpl.
  apply IH.
Qed.

Lemma fill_prefix_repeat {A : Type} (f : A -> A) (x : A) (n : nat) :
  fill_prefix f n (repeat x n) = repeat (f x) n.
Proof. induction n as [|n IH]; simpl; [reflexivity|now rewrite IH]. Qed.

(** Line 355 on a mask of the size of the canvas, with the shape of the
    canvas: the whole mask is set. *)
Lemma fill_prefix2_canvas {A : Type} (z v : A) (height width : nat) :
  fill_prefix2 v height width (zeros2 z height width) = zeros2 v height width.
Proof.
  unfold fill_prefix2, zeros2.
  rewrite fill_prefix_repeat. f_equal. apply fill_prefix_repeat.
Qed.

(** The loop of lines 335-356 without annotations and with padding: every
    image is copied onto a zero canvas, and every pixel mask is 1 on the
    whole canvas. *)
Lemma encode_loop_padding (c height width : nat) (images : list (ndarray Q))
    (start : nat) (acc : BatchFeature) :
  foldM (Packer.encode_step c height width None true)
    (combine (seq start (length images)) images) acc
  = Ok {| pixel_values :=
            pixel_values acc ++ map (assign_prefix3 (np_zeros 0%Q c height width)) images;
          pixel_mask := pixel_mask acc ++ repeat (zeros2 1 height width) (length images);
          mask_labels := mask_labels acc;
          class_labels := class_labels acc |}.
Proof.
  revert start acc. induction images as [|image images IH]; intros start acc; simpl.
  - rewrite !app_nil_r. now destruct acc.
  - rewrite fill_prefix2_canvas. rewrite IH. simpl.
    now rewrite <- !app_assoc.
Qed.

(** What [encode_inputs] returns for a non-empty batch without annotations,
    with padding. The canvas has the per-axis maxima and the images sit in
    its top-left corner, but no pixel mask has a 0. *)
Lemma encode_inputs_pixel_mask_is_full (torch_available : bool)
    (first : ndarray Q) (rest : list (ndarray Q)) (return_tensors : return_tensors_arg) :
  let batch := first :: rest in
  let c := fold_left Nat.max (map (fun a => (shape a).1.1) rest) (shape first).1.1 in
  let height := fold_left Nat.max (map (fun a => (shape a).1.2) rest) (shape first).1.2 in
  let width := fold_left Nat.max (map (fun a => (shape a).2) rest) (shape first).2 in
  Packer.encode_inputs torch_available batch None true return_tensors
  = Ok {| pixel_values := map (assign_prefix3 (np_zeros 0%Q c height width)) batch;
          pixel_mask := repeat (zeros2 1 height width) (length batch);
          mask_labels := [];
          class_labels := [] |}.
Proof.
  intros batch c height width. unfold Packer.encode_inputs.
  unfold batch at 1. rewrite _max_by_axis_shapes. fold c height width.
  cbn [bind]. unfold enumerate. rewrite encode_loop_padding. reflexivity.
Qed.

(** C5 at a failing input. A 1 x 1 image and a 2 x 2 image of one channel
    are packed with padding. The canvas is 2 x 2 and the first image is
    copied to its top-left corner with zeros around it, but its pixel mask
    is 1 on the whole canvas: line 355 reads the shape of [image] after
    line 340 has rebound it to the padded image. *)
Theorem pixel_mask_covers_padding :
  let small := {| shape := (1, 1, 1)%nat; data := [[[7]]]%Q |} in
  let large := {| shape := (1, 2, 2)%nat; data := [[[1; 2]; [3; 4]]]%Q |} in
  exists encoded,
    Packer.encode_inputs true [small; large] None true RtNone = Ok encoded /\
    pixel_values encoded
      = [{| shape := (1, 2, 2)%nat; data := [[[7; 0]; [0; 0]]]%Q |}; large] /\
    pixel_mask encoded = [[[1; 1]; [1; 1]]; [[1; 1]; [1; 1]]] /\
    at2 0 (nth 0 (pixel_mask encoded) []) 1 1 = 1.
Proof. eexists. repeat split. Qed.

(** One turn of the loop with padding for an image that has an annotation:
    the masks that are stored are all false, whatever [masks] holds. *)
Lemma encode_step_masks_are_zero (c height width : nat) (annotations : list annotation)
    (acc : BatchFeature) (idx : nat) (image : ndarray Q)
    (target : annotation) (masks : ndarray bool) (labels : list Z) :
  annotations !! idx = Some target ->
  ann_masks target = Some masks -> ann_labels target = Some labels ->
  exists encoded,
    Packer.encode_step c height width (Some annotations) true acc (idx, image) = Ok encoded /\
    mask_labels encoded
      = mask_labels acc ++ [np_zeros false (shape masks).1.1 height width] /\
    class_labels encoded = class_labels acc ++ [labels].
Proof.
  intros Hidx Hm Hl. unfold Packer.encode_step.
  assert (Htruthy : Packer.truthy (Some annotations) = true).
  { destruct annotations; [discriminate Hidx|reflexivity]. }
  rewrite Htruthy. simpl. rewrite Hidx, Hm. simpl. rewrite Hl. simpl.
  rewrite padded_masks_stay_zero. eexists. repeat split.
Qed.

(** C6 at a failing input. The same two images come with one instance mask
    each, true on the whole image. The padded masks have the instance count
    and the canvas size, and every cell is false: line 348 copies
    [padded_masks], not [masks], into [padded_masks]. *)
Theorem padded_instance_masks_are_empty :
  let small := {| shape := (1, 1, 1)%nat; data := [[[7]]]%Q |} in
  let large := {| shape := (1, 2, 2)%nat; data := [[[1; 2]; [3; 4]]]%Q |} in
  let target (m : ndarray bool) (l : Z) :=
    {| ann_masks := Some m; ann_labels := Some [l]; ann_original_size := None |} in
  let empty := {| shape := (1, 2, 2)%nat; data := [[[false; false]; [false; false]]] |} in
  exists encoded,
    Packer.encode_inputs true [small; large]
      (Some [target {| shape := (1, 1, 1)%nat; data := [[[true]]] |} 5;
             target {| shape := (1, 2, 2)%nat; data := [[[true; true]; [true; true]]] |} 6])
      true (RtType PYTORCH) = Ok encoded /\
    mask_labels encoded = [empty; empty] /\
    class_labels encoded = [[5]; [6]].
Proof. eexists. repeat split. Qed.

(** ** The entry point *)

Lemma resizer_get_size_total (width height : Z) (size : Resizer.size_arg)
    (max_size : option Z) :
  0 < width -> 0 < height ->
  exists wh, Resizer.get_size (width, height) size max_size = Ok wh.
Proof.
  intros Hw Hh. destruct size as [s|wh]; [|now exists wh].
  unfold Resizer.get_size, Resizer.get_size_with_aspect_ratio.
  assert (Hcap : exists s',
    match max_size with
    | Some max_size =>
        let* ratio := py_truediv (inject_Z (Z.max width height))
                        (inject_Z (Z.min width height)) in
        if Qlt_bool (inject_Z max_size) (ratio * inject_Z s)%Q then
          let* scaled := py_truediv (inject_Z max_size * inject_Z (Z.min width height))%Q
                           (inject_Z (Z.max width height)) in
          Ok (py_round scaled)
        else Ok s
    | None => Ok s
    end = Ok s').
  { destruct max_size as [cap|]; [|now exists s].
    rewrite py_truediv_inject by lia. simpl.
    destruct (Qlt_bool _ _); [|now exists s].
    rewrite py_truediv_inject by lia. simpl. eauto. }
  destruct Hcap as [s' ->]. simpl.
  destruct (_ || _); [simpl; eauto|].
  destruct (width <? height); rewrite py_truediv_inject by lia; simpl; eauto.
Qed.

Lemma mapM_total {A B : Type} (f : A -> result B) (xs : list A) :
  (forall x, exists y, f x = Ok y) -> exists ys, mapM f xs = Ok ys.
Proof.
  intros Hf. induction xs as [|x xs [ys IH]]; simpl; [now exists []|].
  destruct (Hf x) as [y ->]. simpl. rewrite IH. simpl. eauto.
Qed.

Section EntryPoint.

Context {image_t : Type}.
Variable is_pil_image : image_t -> bool.
Variable to_pil_image : image_t -> result image_t.
Variable image_size : image_t -> Z * Z.
Variable resize : image_t -> Z * Z -> result image_t.
Variable interpolate_nearest : ndarray bool -> Z -> Z -> result (ndarray bool).
Variable normalize : image_t -> list Q -> list Q -> result image_t.
Variable to_array : image_t -> result (ndarray Q).
Variable torch_available : bool.

Let call_site :=
  Extractor.call_site image_t to_array torch_available.
Let prepare :=
  Extractor.prepare image_t is_pil_image to_pil_image image_size resize
    interpolate_nearest normalize.
Let call :=
  Extractor.__call__ image_t is_pil_image to_pil_image image_size resize
    interpolate_nearest normalize to_array torch_available.

(** [should_pad] is not among the parameters of [encode_inputs], so the
    binding of the arguments of lines 276-278 raises. *)
Lemma call_site_raises (images : list image_t) (annotations : option (list annotation))
    (pad : bool) (return_tensors : return_tensors_arg) :
  call_site images annotations pad return_tensors
  = Raise (TypeError "encode_inputs() got an unexpected keyword argument 'should_pad'").
Proof. reflexivity. Qed.

Lemma call_raises_after_prepare (self : MaskFormerFeatureExtractor)
    (images : Extractor.images_arg image_t)
    (annotations : option Extractor.annotations_arg)
    (pad : bool) (return_tensors : return_tensors_arg) :
  call self images annotations pad return_tensors
  = let* (imgs, anns) := prepare self images annotations in
    call_site imgs anns pad return_tensors.
Proof.
  unfold call, Extractor.__call__. fold prepare.
  destruct (prepare self images annotations) as [[imgs anns]|e]; [|reflexivity].
  simpl. fold call_site. now rewrite call_site_raises.
Qed.

Lemma call_never_returns (self : MaskFormerFeatureExtractor)
    (images : Extractor.images_arg image_t)
    (annotations : option Extractor.annotations_arg)
    (pad : bool) (return_tensors : return_tensors_arg) (encoded : BatchFeature) :
  call self images annotations pad return_tensors <> Ok encoded.
Proof.
  rewrite call_raises_after_prepare.
  destruct (prepare self images annotations) as [[imgs anns]|e]; simpl.
  - rewrite call_site_raises. discriminate.
  - discriminate.
Qed.

(** The collaborators return on every image, and images have positive
    dimensions. *)
Hypothesis to_pil_image_total : forall i, exists i', to_pil_image i = Ok i'.
Hypothesis resize_total : forall i wh, exists i', resize i wh = Ok i'.
Hypothesis interpolate_total :
  forall m h w, exists m', interpolate_nearest m h w = Ok m'.
Hypothesis normalize_total : forall i mean std, exists i', normalize i mean std = Ok i'.
Hypothesis image_size_positive :
  forall i, 0 < fst (image_size i) /\ 0 < snd (image_size i).

Lemma _resize_total (i : image_t) (sz : Resizer.size_arg) (target : option annotation)
    (cap : option Z) :
  exists i' target',
    Extractor._resize image_t is_pil_image to_pil_image image_size resize
      interpolate_nearest i sz target cap = Ok (i', target').
Proof.
  unfold Extractor._resize.
  assert (Hpil : exists p,
    (if is_pil_image i then Ok i else to_pil_image i) = Ok p).
  { destruct (is_pil_image i); [eauto|apply to_pil_image_total]. }
  destruct Hpil as [p ->]. simpl.
  destruct (image_size_positive p) as [Hw Hh].
  destruct (image_size p) as [w h] eqn:Hsz. simpl in Hw, Hh.
  destruct (resizer_get_size_total w h sz cap Hw Hh) as [[w' h'] ->]. simpl.
  destruct (resize_total p (w', h')) as [p' ->]. simpl.
  destruct target as [t|]; simpl; [|eauto].
  destruct (ann_masks t) as [m|]; simpl; [|eauto].
  destruct (interpolate_total m h' w') as [m' ->]. simpl. eauto.
Qed.

Lemma transform_pairs_total
    (f : image_t -> option annotation -> result (image_t * option annotation))
    (images : list image_t) (anns : list annotation) :
  (forall i t, exists i' t', f i t = Ok (i', t')) ->
  exists images' anns',
    Extractor.transform_pairs image_t f images anns = Ok (images', anns').
Proof.
  intros Hf. revert anns.
  induction images as [|i images IH]; intros anns; simpl; [eauto|].
  destruct anns as [|t anns]; [eauto|].
  destruct (Hf i (Some t)) as (i' & t' & ->). simpl.
  destruct (IH anns) as (images' & anns' & ->). simpl. eauto.
Qed.

Lemma _normalize_total (i : image_t) (mean std : list Q) (target : option annotation) :
  exists i' target',
    Extractor._normalize image_t normalize i mean std target = Ok (i', target').
Proof.
  unfold Extractor._normalize.
  destruct (normalize_total i mean std) as [i' ->]. simpl. eauto.
Qed.

(** One loop of the transformations returns, given that its body does. *)
Ltac body_returns :=
  intros; cbv beta;
  match goal with
  | |- context [Extractor._resize _ _ _ _ _ _ ?i ?sz ?t ?cap] =>
      destruct (_resize_total i sz t cap) as (? & ? & ->)
  | |- context [Extractor._normalize _ _ ?i ?mean ?std ?t] =>
      destruct (_normalize_total i mean std t) as (? & ? & ->)
  end;
  simpl; eauto.

Ltac loop_returns :=
  match goal with
  | |- context [Extractor.transform_pairs _ ?f ?l ?a] =>
      let H := fresh "Hloop" in
      destruct (transform_pairs_total f l a) as (? & ? & H);
      [ body_returns | rewrite H; simpl ]
  | |- context [mapM ?f ?l] =>
      let H := fresh "Hloop" in
      destruct (mapM_total f l) as (? & H);
      [ body_returns | rewrite H; simpl ]
  end.

Lemma transformations_total (self : MaskFormerFeatureExtractor)
    (images : list image_t) (annotations : option (list annotation)) :
  exists imgs anns,
    Extractor.transformations image_t is_pil_image to_pil_image image_size resize
      interpolate_nearest normalize self images annotations = Ok (imgs, anns).
Proof.
  unfold Extractor.transformations.
  destruct (do_resize self); [destruct (size self) as [sz|]|];
    destruct annotations as [anns|]; simpl;
    repeat loop_returns;
    destruct (do_normalize self); simpl; repeat loop_returns; eauto.
Qed.

Lemma prepare_total (self : MaskFormerFeatureExtractor)
    (images : Extractor.images_arg image_t)
    (annotations : option Extractor.annotations_arg) :
  well_formed_call images annotations ->
  exists imgs anns, prepare self images annotations = Ok (imgs, anns).
Proof.
  intros Hwf. unfold prepare, Extractor.prepare.
  assert (Hchk : exists l a,
    Extractor.check_arguments image_t images annotations = Ok (l, a)).
  { unfold Extractor.check_arguments.
    destruct images as [i|[|i l]| |]; destruct annotations as [[d|[|d anns]]|];
      simpl in Hwf; try contradiction; simpl; eauto;
      destruct Hwf as [Hm Hl];
      rewrite !bool_decide_eq_true_2 by assumption; simpl; eauto. }
  destruct Hchk as (l & a & ->). simpl. apply transformations_total.
Qed.


End EntryPoint.



(** * Further properties of the code *)

(** ** Resizer *)

(** The size computed when the cap does not apply. *)
Lemma uncapped_size (width height size : Z) (max_size : option Z) :
  0 < width -> 0 < height -> 0 < size ->
  (forall cap, max_size = Some cap -> ~ Resizer.cap_applies width height size cap) ->
  let short := Z.min width height in
  let long := Z.max width height in
  exists oh ow,
    Resizer.get_size_with_aspect_ratio (width, height) size max_size = Ok (oh, ow) /\
    Z.min oh ow = size /\
    Z.max oh ow = size * long / short /\
    short * Z.max oh ow <= size * long < short * (Z.max oh ow + 1) /\
    (width <= height -> ow <= oh) /\ (height <= width -> oh <= ow).
Proof.
  intros Hw Hh Hs Hcap short long.
  assert (Hshort : 0 < short) by (unfold short; lia).
  assert (Hsl : short <= long) by (unfold short, long; lia).
  pose proof (Z.mul_div_le (size * long) short Hshort) as Hq1.
  pose proof (Z.mul_succ_div_gt (size * long) short Hshort) as Hq2.
  assert (Hqr : size <= size * long / short) by (apply Z.div_le_lower_bound; nia).
  assert (Hsq : long = short -> size * long / short = size).
  { intros ->. apply Z.div_mul. lia. }
  set (e := size * long / short) in *.
  unfold Resizer.get_size_with_aspect_ratio.
  assert (Hsize :
    match max_size with
    | Some max_size =>
        let* ratio := py_truediv (inject_Z (Z.max width height))
                        (inject_Z (Z.min width height)) in
        if Qlt_bool (inject_Z max_size) (ratio * inject_Z size)%Q then
          let* scaled := py_truediv (inject_Z max_size * inject_Z (Z.min width height))%Q
                           (inject_Z (Z.max width height)) in
          Ok (py_round scaled)
        else Ok size
    | None => Ok size
    end = Ok size).
  { destruct max_size as [cap|]; [|reflexivity].
    rewrite py_truediv_inject by lia. simpl.
    specialize (Hcap cap eq_refl). unfold Resizer.cap_applies in Hcap.
    apply Qlt_bool_false_iff in Hcap. now rewrite Hcap. }
  rewrite Hsize. simpl.
  destruct ((width <=? height) && (width =? size) || (height <=? width) && (height =? size))
    eqn:Hsc.
  - apply orb_true_iff in Hsc. rewrite !andb_true_iff, !Z.leb_le, !Z.eqb_eq in Hsc.
    assert (Hss : size = short) by (unfold short; lia).
    assert (He : e = long).
    { unfold e. rewrite Hss, Z.mul_comm. apply Z.div_mul. lia. }
    exists height, width. split; [reflexivity|].
    replace (Z.min height width) with short by (unfold short; lia).
    replace (Z.max height width) with long by (unfold long; lia).
    rewrite <- He. repeat split; try lia.
  - destruct (width <? height) eqn:Hwh.
    + apply Z.ltb_lt in Hwh.
      rewrite py_truediv_inject by lia. simpl.
      rewrite py_int_div by nia.
      assert (Hl : long = height) by (unfold long; lia).
      assert (Hsh : short = width) by (unfold short; lia).
      exists (size * height / width), size. split; [reflexivity|].
      rewrite <- Hl, <- Hsh. fold e.
      replace (Z.min e size) with size by lia. replace (Z.max e size) with e by lia.
      repeat split; lia.
    + apply Z.ltb_ge in Hwh.
      rewrite py_truediv_inject by lia. simpl.
      rewrite py_int_div by nia.
      assert (Hl : long = width) by (unfold long; lia).
      assert (Hsh : short = height) by (unfold short; lia).
      exists size, (size * width / height). split; [reflexivity|].
      rewrite <- Hl, <- Hsh. fold e.
      replace (Z.min size e) with size by lia. replace (Z.max size e) with e by lia.
      repeat split; lia.
Qed.

(** The short-circuit of lines 108-109 when the shorter edge has the target
    and the cap does not apply. *)
Lemma exact_match_returns_input (width height size : Z) (max_size : option Z) :
  0 < width -> 0 < height ->
  Z.min width height = size ->
  (forall cap, max_size = Some cap -> ~ Resizer.cap_applies width height size cap) ->
  Resizer.get_size_with_aspect_ratio (width, height) size max_size = Ok (height, width).
Proof.
  intros Hw Hh Hmin Hcap.
  unfold Resizer.get_size_with_aspect_ratio.
  assert (Hshort : (width <=? height) && (width =? size)
                   || (height <=? width) && (height =? size) = true).
  { apply orb_true_iff. rewrite !andb_true_iff, !Z.leb_le, !Z.eqb_eq. lia. }
  destruct max_size as [cap|]; simpl.
  - rewrite py_truediv_inject by lia. simpl.
    specialize (Hcap cap eq_refl). unfold Resizer.cap_applies in Hcap.
    apply Qlt_bool_false_iff in Hcap. rewrite Hcap. simpl.
    now rewrite Hshort.
  - now rewrite Hshort.
Qed.

(** X1. For positive [width], [height] and [size] in the range where the
    doubles of the source are exact enough, when the [max_size] cap does not
    apply (there is none, or the test of line 105 is false),
    [get_size_with_aspect_ratio] returns a size whose shorter edge is [size]
    and whose longer edge is the integer quotient [size * long / short]: the
    aspect ratio is kept up to the truncation of the longer edge, and the
    orientation of the image is kept. *)
Theorem resizer_uncapped_matches_short_edge (width height size : Z) (max_size : option Z) :
  0 < width -> 0 < height -> 0 < size ->
  double_exact width height size max_size ->
  (forall cap, max_size = Some cap -> ~ Resizer.cap_applies width height size cap) ->
  let short := Z.min width height in
  let long := Z.max width height in
  exists oh ow,
    Resizer.get_size_with_aspect_ratio (width, height) size max_size = Ok (oh, ow) /\
    Z.min oh ow = size /\
    Z.max oh ow = size * long / short /\
    short * Z.max oh ow <= size * long < short * (Z.max oh ow + 1) /\
    (width <= height -> ow <= oh) /\ (height <= width -> oh <= ow).
Proof.
  intros Hw Hh Hs _ Hcap. exact (uncapped_size width height size max_size Hw Hh Hs Hcap).
Qed.

(** A 640 x 480 image, target 800 under the cap 1333: 1066 x 800. *)
Lemma resizer_uncapped_matches_short_edge_witness :
  exists oh ow,
    Resizer.get_size_with_aspect_ratio (640, 480) 800 (Some 1333) = Ok (oh, ow) /\
    Z.min oh ow = 800 /\
    Z.max oh ow = 800 * 640 / 480 /\
    480 * Z.max oh ow <= 800 * 640 < 480 * (Z.max oh ow + 1) /\
    (640 <= 480 -> ow <= oh) /\ (480 <= 640 -> oh <= ow).
Proof.
  apply (resizer_uncapped_matches_short_edge 640 480 800 (Some 1333)).
  - lia.
  - lia.
  - lia.
  - split; reflexivity.
  - intros cap Hcap. injection Hcap as <-.
    unfold Resizer.cap_applies. vm_compute. discriminate.
Defined.

(** X2. An image with an edge of length 0 makes [get_size_with_aspect_ratio]
    raise [ZeroDivisionError], with or without [max_size], for every target
    other than 0: the divisions of lines 105, 113 and 116 are not guarded. *)
Theorem resizer_zero_edge_raises (width height size : Z) (max_size : option Z) :
  0 <= width -> 0 <= height -> width = 0 \/ height = 0 -> size <> 0 ->
  Resizer.get_size_with_aspect_ratio (width, height) size max_size
  = Raise ZeroDivisionError.
Proof.
  intros Hw Hh Hzero Hs. unfold Resizer.get_size_with_aspect_ratio.
  destruct max_size as [cap|].
  - replace (Z.min width height) with 0 by lia. reflexivity.
  - simpl.
    assert (Hsc : (width <=? height) && (width =? size)
                  || (height <=? width) && (height =? size) = false).
    { apply orb_false_iff. rewrite !andb_false_iff, !Z.leb_gt, !Z.eqb_neq. lia. }
    rewrite Hsc.
    destruct (width <? height) eqn:Hwh.
    + apply Z.ltb_lt in Hwh. replace width with 0 by lia. reflexivity.
    + apply Z.ltb_ge in Hwh. replace height with 0 by lia. reflexivity.
Qed.

Lemma resizer_zero_edge_raises_witness :
  Resizer.get_size_with_aspect_ratio (0, 480) 800 (Some 1333) = Raise ZeroDivisionError.
Proof.
  apply (resizer_zero_edge_raises 0 480 800 (Some 1333)).
  - lia.
  - lia.
  - left. reflexivity.
  - lia.
Defined.

(** X3. Resizing is idempotent when the cap does not apply: for positive
    [width], [height] and [size], the size that [get_size_with_aspect_ratio]
    computes for an image is a fixed point, so a second pass with the same
    [size] and [max_size] returns it unchanged. PIL sizes are (width, height),
    the computed size is (height, width). *)
Theorem resizer_is_idempotent (width height size : Z) (max_size : option Z) (oh ow : Z) :
  0 < width -> 0 < height -> 0 < size ->
  (forall cap, max_size = Some cap -> ~ Resizer.cap_applies width height size cap) ->
  Resizer.get_size_with_aspect_ratio (width, height) size max_size = Ok (oh, ow) ->
  Resizer.get_size_with_aspect_ratio (ow, oh) size max_size = Ok (oh, ow).
Proof.
  intros Hw Hh Hs Hcap Hfirst.
  destruct (uncapped_size width height size max_size Hw Hh Hs Hcap)
    as (oh' & ow' & Hrun & Hmin & Hmax & [Hlo Hhi] & _).
  rewrite Hfirst in Hrun. injection Hrun as <- <-.
  assert (How : 0 < ow) by lia. assert (Hoh : 0 < oh) by lia.
  apply exact_match_returns_input; try lia.
  intros cap Hc. specialize (Hcap cap Hc).
  rewrite cap_applies_iff in Hcap |- * by lia.
  replace (Z.min ow oh) with size by lia.
  replace (Z.max ow oh) with (Z.max oh ow) by lia.
  assert (Hshort : 0 < Z.min width height) by lia.
  nia.
Qed.

Lemma resizer_is_idempotent_witness :
  Resizer.get_size_with_aspect_ratio (1066, 800) 800 (Some 1333) = Ok (800, 1066).
Proof.
  apply (resizer_is_idempotent 640 480 800 (Some 1333) 800 1066).
  - lia.
  - lia.
  - lia.
  - intros cap Hcap. injection Hcap as <-.
    unfold Resizer.cap_applies. vm_compute. discriminate.
  - reflexivity.
Defined.

(** ** Batch Packer *)

Lemma fold_left_max_ge (l : list nat) (a : nat) :
  (a <= fold_left Nat.max l a)%nat /\ Forall (fun x => (x <= fold_left Nat.max l a)%nat) l.
Proof.
  revert a. induction l as [|x l IH]; intros a; simpl; [split; [lia|constructor]|].
  destruct (IH (Nat.max a x)) as [H1 H2]. split; [lia|].
  constructor; [lia|exact H2].
Qed.

Lemma fold_left_max_attained (l : list nat) (a : nat) :
  fold_left Nat.max l a = a \/ In (fold_left Nat.max l a) l.
Proof.
  revert a. induction l as [|x l IH]; intros a; simpl; [now left|].
  destruct (IH (Nat.max a x)) as [H|H]; [|now right; right].
  rewrite H. destruct (Nat.max_spec a x) as [[_ ->]|[_ ->]]; auto.
Qed.

Lemma axis_max_spec {A : Type} (axis : ndarray A -> nat)
    (first : ndarray A) (rest : list (ndarray A)) :
  let m := fold_left Nat.max (map axis rest) (axis first) in
  (forall a, In a (first :: rest) -> (axis a <= m)%nat) /\
  (exists a, In a (first :: rest) /\ axis a = m).
Proof.
  intros m. destruct (fold_left_max_ge (map axis rest) (axis first)) as [H1 H2].
  fold m in H1, H2. split.
  - intros a [<-|Ha]; [exact H1|].
    rewrite List.Forall_forall in H2. apply H2. now apply in_map.
  - destruct (fold_left_max_attained (map axis rest) (axis first)) as [H|H]; fold m in H.
    + exists first. split; [now left|now symmetry].
    + apply in_map_iff in H as (a & Ha & Hin). exists a. split; [now right|exact Ha].
Qed.

(** X4. On the shapes of a non-empty batch, [_max_by_axis] returns the
    canvas [c, height, width]: no image exceeds it on any axis, and on each
    axis some image of the batch attains it. *)
Theorem canvas_is_per_axis_maximum {A : Type} (first : ndarray A) (rest : list (ndarray A)) :
  exists c height width,
    Packer._max_by_axis (map shape_list (first :: rest)) = Ok [c; height; width] /\
    (forall a, In a (first :: rest) ->
       ((shape a).1.1 <= c /\ (shape a).1.2 <= height /\ (shape a).2 <= width)%nat) /\
    (exists a, In a (first :: rest) /\ (shape a).1.1 = c) /\
    (exists a, In a (first :: rest) /\ (shape a).1.2 = height) /\
    (exists a, In a (first :: rest) /\ (shape a).2 = width).
Proof.
  do 3 eexists. split; [apply _max_by_axis_shapes|].
  destruct (axis_max_spec (fun a : ndarray A => (shape a).1.1) first rest) as [Hc1 Hc2].
  destruct (axis_max_spec (fun a : ndarray A => (shape a).1.2) first rest) as [Hh1 Hh2].
  destruct (axis_max_spec (fun a : ndarray A => (shape a).2) first rest) as [Hw1 Hw2].
  repeat split; auto.
Qed.

(** The inner loop of [_max_by_axis] over one sublist. *)
Lemma max_inner_loop (sublist maxes : list nat) (start : nat) :
  let body := fun (maxes : list nat) '(index, item) =>
    match maxes !! index with
    | Some m => Ok (<[index := Nat.max m item]> maxes)
    | None => Raise IndexError
    end in
  ((start + length sublist <= length maxes)%nat ->
   exists maxes', foldM body (combine (seq start (length sublist)) sublist) maxes = Ok maxes'
                  /\ length maxes' = length maxes) /\
  ((length maxes < start + length sublist)%nat -> (start <= length maxes)%nat ->
   foldM body (combine (seq start (length sublist)) sublist) maxes = Raise IndexError).
Proof.
  intros body. revert maxes start.
  induction sublist as [|item sublist IH]; intros maxes start; simpl.
  - split; [eauto|lia].
  - destruct (maxes !! start) as [m|] eqn:Hm.
    + apply lookup_lt_Some in Hm. simpl.
      destruct (IH (<[start := Nat.max m item]> maxes) (S start)) as [IH1 IH2].
      rewrite length_insert in IH1, IH2. split.
      * intros Hlen. apply IH1. lia.
      * intros Hlen Hstart. apply IH2; lia.
    + apply lookup_ge_None in Hm. simpl. split; [lia|reflexivity].
Qed.

(** X5. [_max_by_axis] raises [IndexError] on the empty list, and on a list
    in which some sublist is longer than the first one; when no sublist is
    longer than the first, it returns a list of the length of the first. *)
Theorem _max_by_axis_errors (first : list nat) (rest : list (list nat)) :
  Packer._max_by_axis [] = Raise IndexError /\
  (Forall (fun sublist => (length sublist <= length first)%nat) rest ->
   exists maxes, Packer._max_by_axis (first :: rest) = Ok maxes /\
                 length maxes = length first) /\
  (Exists (fun sublist => (length first < length sublist)%nat) rest ->
   Packer._max_by_axis (first :: rest) = Raise IndexError).
Proof.
  split; [reflexivity|]. unfold Packer._max_by_axis, enumerate.
  split.
  - revert first. induction rest as [|sublist rest IH]; intros first Hall; simpl; [eauto|].
    apply Forall_cons in Hall as [Hlen Hall].
    destruct (max_inner_loop sublist first 0) as [Hok _].
    destruct (Hok Hlen) as (maxes' & -> & Hlen'). simpl.
    destruct (IH maxes') as (maxes & Hrun & Hlen''); [now rewrite Hlen'|].
    exists maxes. split; [exact Hrun|lia].
  - revert first. induction rest as [|sublist rest IH]; intros first Hex; simpl.
    + inversion Hex.
    + destruct (max_inner_loop sublist first 0) as [Hok Hbad].
      destruct (Nat.le_gt_cases (length sublist) (length first)) as [Hle|Hgt].
      * destruct (Hok Hle) as (maxes' & -> & Hlen'). simpl.
        apply IH. rewrite Hlen'.
        apply Exists_cons in Hex as [Hhere|Hlater]; [lia|exact Hlater].
      * rewrite Hbad by lia. reflexivity.
Qed.

Lemma _max_by_axis_errors_witness :
  (exists maxes, Packer._max_by_axis [[3; 2; 5]; [3; 4]; [3; 1; 1]]%nat = Ok maxes /\
                 length maxes = 3%nat) /\
  Packer._max_by_axis [[3; 2]; [3; 4; 4]]%nat = Raise IndexError.
Proof.
  split.
  - apply (proj1 (proj2 (_max_by_axis_errors [3; 2; 5]%nat [[3; 4]; [3; 1; 1]]%nat))).
    repeat constructor.
  - apply (proj2 (proj2 (_max_by_axis_errors [3; 2]%nat [[3; 4; 4]]%nat))).
    constructor. simpl. lia.
Defined.

Lemma canvas_bounds {A : Type} (first : ndarray A) (rest : list (ndarray A)) :
  (forall a, In a (first :: rest) ->
     ((shape a).1.1 <= fold_left Nat.max (map (fun a => (shape a).1.1) rest) (shape first).1.1)%nat) /\
  (forall a, In a (first :: rest) ->
     ((shape a).1.2 <= fold_left Nat.max (map (fun a => (shape a).1.2) rest) (shape first).1.2)%nat) /\
  (forall a, In a (first :: rest) ->
     ((shape a).2 <= fold_left Nat.max (map (fun a => (shape a).2) rest) (shape first).2)%nat).
Proof.
  repeat split.
  - apply (axis_max_spec (fun a : ndarray A => (shape a).1.1)).
  - apply (axis_max_spec (fun a : ndarray A => (shape a).1.2)).
  - apply (axis_max_spec (fun a : ndarray A => (shape a).2)).
Qed.

Lemma length_overlay {A : Type} (f : A -> A -> A) (dst src : list A) :
  length (overlay f dst src) = length dst.
Proof.
  revert src. induction dst as [|d dst IH]; intros [|s src]; simpl; auto.
Qed.

Lemma nth_overlay_inside {A : Type} (f : A -> A -> A) (dst src : list A) (i : nat) (d : A) :
  (i < length dst)%nat -> (i < length src)%nat ->
  nth i (overlay f dst src) d = f (nth i dst d) (nth i src d).
Proof.
  revert src i. induction dst as [|x dst IH]; intros [|y src] [|i] Hd Hs;
    simpl in *; try lia; [reflexivity|].
  apply IH; lia.
Qed.

Lemma nth_overlay_outside {A : Type} (f : A -> A -> A) (dst src : list A) (i : nat) (d : A) :
  (length src <= i)%nat -> nth i (overlay f dst src) d = nth i dst d.
Proof.
  revert src i. induction dst as [|x dst IH]; intros [|y src] [|i] Hs;
    simpl in *; try lia; try reflexivity.
  apply IH; lia.
Qed.

Lemma nth_repeat_lt {A : Type} (x d : A) (n i : nat) :
  (i < n)%nat -> nth i (repeat x n) d = x.
Proof.
  revert i. induction n as [|n IH]; intros [|i] H; simpl; try lia; [reflexivity|].
  apply IH. lia.
Qed.

Lemma lookup_map {A B : Type} (f : A -> B) (l : list A) (n : nat) :
  map f l !! n = option_map f (l !! n).
Proof.
  revert n. induction l as [|x l IH]; intros [|n]; simpl; auto.
Qed.

(** The entries of an image copied onto a zero canvas that is large enough. *)
Lemma padded_entries (image : ndarray Q) (c height width i j k : nat) :
  well_shaped image ->
  ((shape image).1.1 <= c)%nat -> ((shape image).1.2 <= height)%nat ->
  ((shape image).2 <= width)%nat ->
  (i < c)%nat -> (j < height)%nat -> (k < width)%nat ->
  at3 0%Q (data (assign_prefix3 (np_zeros 0%Q c height width) image)) i j k
  = if (i <? (shape image).1.1)%nat && (j <? (shape image).1.2)%nat
       && (k <? (shape image).2)%nat
    then at3 0%Q (data image) i j k else 0%Q.
Proof.
  intros [Hlen Hplanes] Hc Hh Hw Hi Hj Hk.
  unfold at3, assign_prefix3, np_zeros, zeros3, zeros2. simpl.
  destruct (i <? (shape image).1.1)%nat eqn:Ei; simpl.
  - apply Nat.ltb_lt in Ei.
    rewrite nth_overlay_inside by (rewrite ?repeat_length; lia).
    rewrite nth_repeat_lt by lia.
    assert (Hplane : length (nth i (data image) []) = (shape image).1.2 /\
                     Forall (fun row => length row = (shape image).2)
                            (nth i (data image) [])).
    { rewrite List.Forall_forall in Hplanes. apply Hplanes. apply nth_In. lia. }
    destruct Hplane as [Hpl Hrows].
    destruct (j <? (shape image).1.2)%nat eqn:Ej; simpl.
    + apply Nat.ltb_lt in Ej.
      rewrite nth_overlay_inside by (rewrite ?repeat_length; lia).
      rewrite nth_repeat_lt by lia.
      assert (Hrow : length (nth j (nth i (data image) []) []) = (shape image).2).
      { rewrite List.Forall_forall in Hrows. apply Hrows. apply nth_In. lia. }
      destruct (k <? (shape image).2)%nat eqn:Ek.
      * apply Nat.ltb_lt in Ek.
        rewrite nth_overlay_inside by (rewrite ?repeat_length; lia). reflexivity.
      * apply Nat.ltb_ge in Ek.
        rewrite nth_overlay_outside by lia. apply nth_repeat_lt. lia.
    + apply Nat.ltb_ge in Ej.
      rewrite nth_overlay_outside by lia.
      rewrite nth_repeat_lt by lia. apply nth_repeat_lt. lia.
  - apply Nat.ltb_ge in Ei.
    rewrite nth_overlay_outside by lia.
    rewrite !nth_repeat_lt by lia. reflexivity.
Qed.

Lemma Forall_overlay {A : Type} (P : A -> Prop) (f : A -> A -> A) (dst src : list A) :
  Forall P dst -> (forall d s, P d -> P (f d s)) -> Forall P (overlay f dst src).
Proof.
  intros Hdst Hf. revert src.
  induction Hdst as [|d dst Hd Hdst IH]; intros [|s src]; simpl;
    try constructor; auto.
Qed.

(** An assignment to a slice keeps the extent of the canvas: the padded
    array has all the cells of its shape, whatever is copied into it. *)
Lemma padded_is_well_shaped (image : ndarray Q) (c height width : nat) :
  well_shaped (assign_prefix3 (np_zeros 0%Q c height width) image).
Proof.
  unfold well_shaped, assign_prefix3, np_zeros, zeros3, zeros2. cbn [shape data fst snd].
  split; [now rewrite length_overlay, repeat_length|].
  apply Forall_overlay.
  - apply List.Forall_forall. intros plane Hplane. apply repeat_spec in Hplane. subst plane.
    split; [apply repeat_length|].
    apply List.Forall_forall. intros row Hrow. apply repeat_spec in Hrow. subst row.
    apply repeat_length.
  - intros plane src [Hlen Hrows]. split; [now rewrite length_overlay|].
    apply Forall_overlay; [exact Hrows|].
    intros row src' Hrow. now rewrite length_overlay.
Qed.



(** X7. With padding and [return_tensors=None], every pixel mask that
    [encode_inputs] returns for a non-empty batch has the size of the canvas
    and is 1 in every cell, also where the image was padded: line 355 reads
    the shape of the padded image. *)
Theorem pixel_masks_are_all_ones (torch_available : bool)
    (first : ndarray Q) (rest : list (ndarray Q)) :
  exists c height width encoded,
    Packer._max_by_axis (map shape_list (first :: rest)) = Ok [c; height; width] /\
    Packer.encode_inputs torch_available (first :: rest) None true RtNone
      = Ok encoded /\
    length (pixel_mask encoded) = length (first :: rest) /\
    forall mask, In mask (pixel_mask encoded) ->
      length mask = height /\
      forall i j, (i < height)%nat -> (j < width)%nat -> at2 0 mask i j = 1.
Proof.
  do 4 eexists. split; [apply _max_by_axis_shapes|].
  split; [apply encode_inputs_pixel_mask_is_full|].
  cbn [pixel_mask]. split; [apply repeat_length|].
  intros mask Hmask. apply repeat_spec in Hmask. subst mask.
  unfold zeros2. split; [apply repeat_length|].
  intros i j Hi Hj. unfold at2. rewrite nth_repeat_lt by lia. now apply nth_repeat_lt.
Qed.

Lemma encode_loop_no_padding (c height width : nat) (images : list (ndarray Q))
    (start : nat) (acc : BatchFeature) :
  foldM (Packer.encode_step c height width None false)
    (combine (seq start (length images)) images) acc
  = Ok {| pixel_values := pixel_values acc ++ images;
          pixel_mask := pixel_mask acc;
          mask_labels := mask_labels acc;
          class_labels := class_labels acc |}.
Proof.
  revert start acc. induction images as [|image images IH]; intros start acc; simpl.
  - rewrite app_nil_r. now destruct acc.
  - rewrite IH. simpl. now rewrite <- app_assoc.
Qed.

(** X8. Without padding, without annotations and with
    [return_tensors=None], [encode_inputs] returns the images of a non-empty
    batch as it got them, in their order and of whatever sizes, and no pixel
    mask: ["pixel_mask"] is the empty list. *)
Theorem no_padding_returns_the_images (torch_available : bool)
    (first : ndarray Q) (rest : list (ndarray Q)) :
  Packer.encode_inputs torch_available (first :: rest) None false RtNone
  = Ok {| pixel_values := first :: rest; pixel_mask := [];
          mask_labels := []; class_labels := [] |}.
Proof.
  unfold Packer.encode_inputs. rewrite _max_by_axis_shapes. cbn [bind].
  unfold enumerate. rewrite encode_loop_no_padding. reflexivity.
Qed.

(** X9. With a non-empty list of annotations, [encode_inputs] returns only
    for [return_tensors] naming PyTorch and with torch installed: for [None]
    and every other tensor type lines 367-376 raise after the batch has been
    built. *)
Theorem annotations_need_pytorch (torch_available : bool)
    (pixel_values_list : list (ndarray Q)) (annotations : list annotation)
    (pad : bool) (return_tensors : return_tensors_arg) (encoded : BatchFeature) :
  annotations <> [] ->
  Packer.encode_inputs torch_available pixel_values_list (Some annotations) pad
    return_tensors = Ok encoded ->
  return_tensors = RtType PYTORCH /\ torch_available = true.
Proof.
  intros Hne. unfold Packer.encode_inputs.
  destruct (Packer._max_by_axis _) as [[|c [|h [|w [|? ?]]]]|e]; simpl; try discriminate.
  destruct (foldM _ _ _) as [bf|e]; simpl; [|discriminate].
  destruct annotations as [|t anns]; [contradiction|]. simpl.
  destruct return_tensors as [|[]|]; simpl; try discriminate.
  destruct torch_available; simpl; [auto|discriminate].
Qed.

Lemma annotations_need_pytorch_witness :
  RtType PYTORCH = RtType PYTORCH /\ true = true.
Proof.
  apply (annotations_need_pytorch true
    [{| shape := (1, 1, 1)%nat; data := [[[7]]]%Q |}]
    [{| ann_masks := Some {| shape := (1, 1, 1)%nat; data := [[[true]]] |};
        ann_labels := Some [5]; ann_original_size := None |}]
    true (RtType PYTORCH)
    {| pixel_values := [{| shape := (1, 1, 1)%nat; data := [[[7]]]%Q |}];
       pixel_mask := [[[1]]];
       mask_labels := [{| shape := (1, 1, 1)%nat; data := [[[false]]] |}];
       class_labels := [[5]] |}).
  - discriminate.
  - reflexivity.
Defined.

(** The loop of lines 335-356 with padding and annotations, over images
    whose annotations exist and have their keys. *)
Lemma encode_loop_annotations (c height width : nat) (annotations : list annotation)
    (images : list (ndarray Q)) (start : nat) (acc : BatchFeature) :
  Forall has_keys annotations ->
  (start + length images <= length annotations)%nat ->
  (0 < length annotations)%nat ->
  foldM (Packer.encode_step c height width (Some annotations) true)
    (combine (seq start (length images)) images) acc
  = Ok {| pixel_values :=
            pixel_values acc ++ map (assign_prefix3 (np_zeros 0%Q c height width)) images;
          pixel_mask := pixel_mask acc ++ repeat (zeros2 1 height width) (length images);
          mask_labels :=
            mask_labels acc
            ++ map (fun t => np_zeros false (instances t) height width)
                 (take (length images) (drop start annotations));
          class_labels :=
            class_labels acc
            ++ map labels_of (take (length images) (drop start annotations)) |}.
Proof.
  intros Hkeys. revert start acc.
  induction images as [|image images IH]; intros start acc Hlen Hpos.
  - simpl. rewrite !app_nil_r. now destruct acc.
  - simpl in Hlen. cbn [length seq combine foldM]. unfold Packer.encode_step at 1.
    destruct (annotations !! start) as [t|] eqn:Ht;
      [|apply lookup_ge_None in Ht; lia].
    assert (Hk : has_keys t).
    { rewrite List.Forall_forall in Hkeys. apply Hkeys.
      apply list_elem_of_In. exact (list_elem_of_lookup_2 _ _ _ Ht). }
    destruct Hk as [[m Hm] [l Hl]].
    assert (Htruthy : Packer.truthy (Some annotations) = true)
      by (destruct annotations; [simpl in Hpos; lia|reflexivity]).
    rewrite Htruthy. change (default [] (Some annotations)) with annotations.
    rewrite Ht, Hm. cbn [Packer.getitem bind].
    rewrite Hl. cbn [Packer.getitem bind].
    rewrite padded_masks_stay_zero. cbn [assign_prefix3 np_zeros shape fst snd].
    rewrite fill_prefix2_canvas.
    rewrite IH by lia. cbn [pixel_values pixel_mask mask_labels class_labels].
    rewrite (drop_S _ _ _ Ht). cbn [take map repeat length].
    unfold instances at 2, labels_of at 2. rewrite Hm, Hl. cbn [default].
    now rewrite <- !app_assoc.
Qed.

(** X10. With padding and an annotation with both keys for every image, the
    [data] that the loop of lines 335-356 of [encode_inputs] builds for a
    non-empty batch holds, for the images in their order, the class labels
    unchanged and as masks all-false arrays of the instance count of the
    annotation and the size of the canvas, for every content of the given
    masks: line 348 copies [padded_masks] into itself. *)
Theorem padded_masks_are_all_false
    (first : ndarray Q) (rest : list (ndarray Q)) (annotations : list annotation) :
  Forall has_keys annotations ->
  (length (first :: rest) <= length annotations)%nat ->
  exists c height width data,
    Packer._max_by_axis (map shape_list (first :: rest)) = Ok [c; height; width] /\
    foldM (Packer.encode_step c height width (Some annotations) true)
      (enumerate (first :: rest))
      {| pixel_values := []; pixel_mask := []; mask_labels := []; class_labels := [] |}
      = Ok data /\
    mask_labels data
      = map (fun t => np_zeros false (instances t) height width)
          (take (length (first :: rest)) annotations) /\
    class_labels data = map labels_of (take (length (first :: rest)) annotations).
Proof.
  intros Hkeys Hlen.
  do 4 eexists. split; [apply _max_by_axis_shapes|].
  unfold enumerate. rewrite encode_loop_annotations; [|exact Hkeys|exact Hlen|simpl in Hlen; lia].
  split; [reflexivity|]. cbn [mask_labels class_labels app drop]. split; reflexivity.
Qed.

Lemma padded_masks_are_all_false_witness :
  let small := {| shape := (1, 1, 1)%nat; data := [[[7]]]%Q |} in
  let target := {| ann_masks := Some {| shape := (2, 1, 1)%nat; data := [[[true]]; [[true]]] |};
                   ann_labels := Some [5; 6]; ann_original_size := None |} in
  exists c height width data,
    Packer._max_by_axis (map shape_list [small]) = Ok [c; height; width] /\
    foldM (Packer.encode_step c height width (Some [target]) true) (enumerate [small])
      {| pixel_values := []; pixel_mask := []; mask_labels := []; class_labels := [] |}
      = Ok data /\
    mask_labels data
      = map (fun t => np_zeros false (instances t) height width) (take 1 [target]) /\
    class_labels data = map labels_of (take 1 [target]).
Proof.
  intros small target.
  apply (padded_masks_are_all_false small [] [target]).
  - repeat constructor; eexists; reflexivity.
  - simpl. lia.
Defined.

(** The same loop when the annotations run out. *)
Lemma encode_loop_too_few_annotations (c height width : nat) (pad : bool)
    (annotations : list annotation) (images : list (ndarray Q)) (start : nat)
    (acc : BatchFeature) :
  Forall has_keys annotations ->
  (start <= length annotations)%nat ->
  (length annotations < start + length images)%nat ->
  (0 < length annotations)%nat ->
  foldM (Packer.encode_step c height width (Some annotations) pad)
    (combine (seq start (length images)) images) acc
  = Raise IndexError.
Proof.
  intros Hkeys. revert start acc.
  induction images as [|image images IH]; intros start acc Hstart Hlen Hpos;
    [simpl in Hlen; lia|].
  simpl in Hlen. cbn [length seq combine foldM]. unfold Packer.encode_step at 1.
  assert (Htruthy : Packer.truthy (Some annotations) = true)
    by (destruct annotations; [simpl in Hpos; lia|reflexivity]).
  rewrite Htruthy. change (default [] (Some annotations)) with annotations.
  destruct (annotations !! start) as [t|] eqn:Ht.
  - apply lookup_lt_Some in Ht as Hlt.
    assert (Hk : has_keys t).
    { rewrite List.Forall_forall in Hkeys. apply Hkeys.
      apply list_elem_of_In. exact (list_elem_of_lookup_2 _ _ _ Ht). }
    destruct Hk as [[m Hm] [l Hl]].
    rewrite Hm. cbn [Packer.getitem bind]. rewrite Hl. cbn [Packer.getitem bind].
    apply IH; lia.
  - reflexivity.
Qed.

(** X11. [encode_inputs] does not check that the annotations fit the batch.
    A non-empty list with fewer annotations than images, each with both
    keys, raises [IndexError] at line 344; and when the annotation of the
    first image lacks the key ["masks"] or ["labels"], lines 345 and 351
    raise [KeyError]. *)
Theorem annotations_that_do_not_fit_raise (torch_available pad : bool)
    (first : ndarray Q) (rest : list (ndarray Q)) (annotations : list annotation)
    (return_tensors : return_tensors_arg) :
  (annotations <> [] -> Forall has_keys annotations ->
   (length annotations < length (first :: rest))%nat ->
   Packer.encode_inputs torch_available (first :: rest) (Some annotations) pad
     return_tensors = Raise IndexError) /\
  (forall target others, annotations = target :: others -> ~ has_keys target ->
   Packer.encode_inputs torch_available (first :: rest) (Some annotations) pad
     return_tensors = Raise KeyError).
Proof.
  split.
  - intros Hne Hkeys Hlen.
    unfold Packer.encode_inputs. rewrite _max_by_axis_shapes. cbn [bind].
    unfold enumerate. rewrite encode_loop_too_few_annotations; try assumption; try lia.
    + reflexivity.
    + destruct annotations; [contradiction|simpl; lia].
  - intros target others -> Hno.
    unfold Packer.encode_inputs. rewrite _max_by_axis_shapes. cbn [bind].
    unfold enumerate. simpl.
    destruct (ann_masks target) as [m|] eqn:Hm; [|reflexivity]. simpl.
    destruct (ann_labels target) as [l|] eqn:Hl; [|reflexivity].
    exfalso. apply Hno. split; [rewrite Hm|rewrite Hl]; eauto.
Qed.

Lemma annotations_that_do_not_fit_raise_witness :
  let image := {| shape := (1, 1, 1)%nat; data := [[[7]]]%Q |} in
  let target := {| ann_masks := Some {| shape := (1, 1, 1)%nat; data := [[[true]]] |};
                   ann_labels := Some [5]; ann_original_size := None |} in
  let bare := {| ann_masks := None; ann_labels := Some [5]; ann_original_size := None |} in
  Packer.encode_inputs true [image; image] (Some [target]) true (RtType PYTORCH)
    = Raise IndexError /\
  Packer.encode_inputs true [image] (Some [bare]) true (RtType PYTORCH) = Raise KeyError.
Proof.
  intros image target bare. split.
  - apply (proj1 (annotations_that_do_not_fit_raise true true image [image] [target]
                    (RtType PYTORCH))).
    + discriminate.
    + repeat constructor; eexists; reflexivity.
    + simpl. lia.
  - apply (proj2 (annotations_that_do_not_fit_raise true true image [] [bare]
                    (RtType PYTORCH)) bare []).
    + reflexivity.
    + intros [[m Hm] _]. discriminate Hm.
Defined.

(** ** Filtering of the queries, continued *)

Lemma zip3_of_projections {A B C : Type} (l : list (A * B * C)) :
  zip3 (map (fun q => fst (fst q)) l) (map (fun q => snd (fst q)) l) (map snd l) = l.
Proof.
  unfold zip3. induction l as [|[[a b] c] l IH]; simpl; [reflexivity|now rewrite IH].
Qed.

Lemma filter_filter_weaker {A : Type} (f g : A -> bool) (l : list A) :
  (forall x, g x = true -> f x = true) ->
  List.filter g (List.filter f l) = List.filter g l.
Proof.
  intros Himp. induction l as [|x l IH]; simpl; [reflexivity|].
  destruct (f x) eqn:Ef; simpl.
  - now rewrite IH.
  - destruct (g x) eqn:Eg; [|exact IH].
    apply Himp in Eg. congruence.
Qed.

(** X12. What [remove_low_and_no_objects] returns are three tensors of one
    and the same length, at most the number of queries it was given: the
    loop over [range(pred_labels.shape[0])] can index all three. *)
Theorem surviving_tensors_have_one_length
    (masks : list (array2 Q)) (scores : list Q) (labels : list nat)
    (object_mask_threshold : Q) (num_labels : nat)
    (masks' : list (array2 Q)) (scores' : list Q) (labels' : list nat) :
  Merger.remove_low_and_no_objects masks scores labels object_mask_threshold num_labels
    = Ok (masks', scores', labels') ->
  length masks' = length scores' /\ length scores' = length labels' /\
  (length labels' <= length labels)%nat.
Proof.
  destruct (remove_low_cases masks scores labels object_mask_threshold num_labels)
    as [(H1 & H2 & ->)|(_ & ->)]; [|discriminate].
  intros H. injection H as <- <- <-. rewrite !length_map.
  repeat split. unfold Spec.filtering.
  etransitivity; [apply filter_length_le|].
  unfold zip3. rewrite !length_combine. lia.
Qed.

Lemma surviving_tensors_have_one_length_witness :
  length [[[1 # 2]]] = length [9 # 10] /\ length [9 # 10] = length [0%nat] /\
  (length [0%nat] <= length [0; 1; 2]%nat)%nat.
Proof.
  apply (surviving_tensors_have_one_length
           [[[1 # 2]]; [[1 # 3]]; [[1 # 4]]] [9 # 10; 1 # 2; 95 # 100] [0; 1; 2]%nat
           (8 # 10) 2 [[[1 # 2]]] [9 # 10] [0%nat]).
  reflexivity.
Defined.

(** X13. Filtering composes: filtering the survivors of a threshold again
    with a threshold that is not lower gives what filtering the given
    queries with that second threshold gives; in particular a second pass
    with the same threshold returns the survivors unchanged. *)
Theorem filtering_composes
    (masks : list (array2 Q)) (scores : list Q) (labels : list nat)
    (low high : Q) (num_labels : nat)
    (masks' : list (array2 Q)) (scores' : list Q) (labels' : list nat) :
  (low <= high)%Q ->
  Merger.remove_low_and_no_objects masks scores labels low num_labels
    = Ok (masks', scores', labels') ->
  Merger.remove_low_and_no_objects masks' scores' labels' high num_labels
  = Merger.remove_low_and_no_objects masks scores labels high num_labels /\
  Merger.remove_low_and_no_objects masks' scores' labels' low num_labels
  = Ok (masks', scores', labels').
Proof.
  intros Hle.
  destruct (remove_low_cases masks scores labels low num_labels)
    as [(H1 & H2 & ->)|(_ & ->)]; [|discriminate].
  intros H. injection H as <- <- <-.
  set (kept := Spec.filtering low num_labels (zip3 masks scores labels)).
  assert (Hagain : forall thr, (low <= thr)%Q ->
    Merger.remove_low_and_no_objects
      (map (fun q => fst (fst q)) kept) (map (fun q => snd (fst q)) kept) (map snd kept)
      thr num_labels
    = Merger.remove_low_and_no_objects masks scores labels thr num_labels).
  { intros thr Hthr.
    destruct (remove_low_cases masks scores labels thr num_labels)
      as [(_ & _ & ->)|(Hne & _)]; [|tauto].
    destruct (remove_low_cases
                (map (fun q => fst (fst q)) kept) (map (fun q => snd (fst q)) kept)
                (map snd kept) thr num_labels)
      as [(_ & _ & ->)|(Hne & _)]; [|rewrite !length_map in Hne; tauto].
    rewrite zip3_of_projections. unfold kept, Spec.filtering.
    rewrite filter_filter_weaker; [reflexivity|].
    intros [[m s] l]. unfold Spec.discards.
    rewrite !negb_true_iff, !orb_false_iff. intros [Hl Hs]. split; [exact Hl|].
    destruct (Qle_bool s low) eqn:E; [|reflexivity].
    apply Qle_bool_iff in E.
    assert (Hs' : Qle_bool s thr = true)
      by (apply Qle_bool_iff; exact (Qle_trans _ _ _ E Hthr)).
    congruence. }
  split; [exact (Hagain high Hle)|].
  rewrite (Hagain low (Qle_refl low)).
  destruct (remove_low_cases masks scores labels low num_labels)
    as [(_ & _ & ->)|(Hne & _)]; [reflexivity|tauto].
Qed.

Lemma filtering_composes_witness :
  Merger.remove_low_and_no_objects [[[1 # 2]]; [[1 # 4]]] [9 # 10; 95 # 100] [0; 1]%nat
    (9 # 10) 2
  = Merger.remove_low_and_no_objects
      [[[1 # 2]]; [[1 # 3]]; [[1 # 4]]] [9 # 10; 1 # 2; 95 # 100] [0; 1; 1]%nat (9 # 10) 2 /\
  Merger.remove_low_and_no_objects [[[1 # 2]]; [[1 # 4]]] [9 # 10; 95 # 100] [0; 1]%nat
    (8 # 10) 2
  = Ok ([[[1 # 2]]; [[1 # 4]]], [9 # 10; 95 # 100], [0; 1]%nat).
Proof.
  apply (filtering_composes
           [[[1 # 2]]; [[1 # 3]]; [[1 # 4]]] [9 # 10; 1 # 2; 95 # 100] [0; 1; 1]%nat
           (8 # 10) (9 # 10) 2).
  - vm_compute. discriminate.
  - reflexivity.
Defined.

(** ** Per-pixel assignment *)

Lemma argmax_from_spec (xs pre : list Q) (best_i : nat) (best : Q) :
  pre !! best_i = Some best ->
  (forall j x, pre !! j = Some x -> (x <= best)%Q) ->
  (forall j x, (j < best_i)%nat -> pre !! j = Some x -> (x < best)%Q) ->
  exists v,
    (pre ++ xs) !! Merger.argmax_from best_i best (length pre) xs = Some v /\
    (forall j x, (pre ++ xs) !! j = Some x -> (x <= v)%Q) /\
    (forall j x, (j < Merger.argmax_from best_i best (length pre) xs)%nat ->
       (pre ++ xs) !! j = Some x -> (x < v)%Q).
Proof.
  revert pre best_i best. induction xs as [|x xs IH]; intros pre best_i best Hbest Hmax Hfirst.
  - simpl. rewrite app_nil_r. eauto.
  - simpl. replace (pre ++ x :: xs) with ((pre ++ [x]) ++ xs) by now rewrite <- app_assoc.
    replace (S (length pre)) with (length (pre ++ [x]))
      by (rewrite length_app; simpl; lia).
    destruct (Qlt_bool best x) eqn:E.
    + apply Qlt_bool_iff in E. apply IH.
      * rewrite lookup_app_r by lia. now rewrite Nat.sub_diag.
      * intros j y Hj. apply lookup_app_Some in Hj as [Hj|[_ Hj]].
        -- apply Qlt_le_weak. eapply Qle_lt_trans; [exact (Hmax _ _ Hj)|exact E].
        -- destruct (j - length pre)%nat as [|[|?]]; simpl in Hj; try discriminate.
           injection Hj as <-. apply Qle_refl.
      * intros j y Hlt Hj.
        apply lookup_app_Some in Hj as [Hj|[Hge Hj]]; [|lia].
        eapply Qle_lt_trans; [exact (Hmax _ _ Hj)|exact E].
    + apply Qlt_bool_false_iff in E. apply Qnot_lt_le in E. apply IH.
      * apply lookup_app_l_Some. exact Hbest.
      * intros j y Hj. apply lookup_app_Some in Hj as [Hj|[_ Hj]].
        -- exact (Hmax _ _ Hj).
        -- destruct (j - length pre)%nat as [|[|?]]; simpl in Hj; try discriminate.
           now injection Hj as <-.
      * intros j y Hlt Hj. apply lookup_app_Some in Hj as [Hj|[Hge Hj]].
        -- exact (Hfirst _ _ Hlt Hj).
        -- apply lookup_lt_Some in Hbest. lia.
Qed.

(** X14. [argmax] of a non-empty list is the index of its first maximum: it
    is an index of the list, no entry is above the entry it points at, and
    every entry before it is strictly below. Ties go to the first query. *)
Theorem argmax_is_first_maximum (xs : list Q) :
  xs <> [] ->
  exists v,
    xs !! Merger.argmax xs = Some v /\
    (forall j x, xs !! j = Some x -> (x <= v)%Q) /\
    (forall j x, (j < Merger.argmax xs)%nat -> xs !! j = Some x -> (x < v)%Q).
Proof.
  destruct xs as [|x xs]; [contradiction|]. intros _. unfold Merger.argmax.
  apply (argmax_from_spec xs [x] 0 x).
  - reflexivity.
  - intros [|[|?]] y Hj; simpl in Hj; try discriminate.
    injection Hj as <-. apply Qle_refl.
  - intros j y Hj. lia.
Qed.

Lemma argmax_is_first_maximum_witness :
  exists v,
    [1 # 2; 9 # 10; 9 # 10] !! Merger.argmax [1 # 2; 9 # 10; 9 # 10] = Some v /\
    (forall j x, [1 # 2; 9 # 10; 9 # 10] !! j = Some x -> (x <= v)%Q) /\
    (forall j x, (j < Merger.argmax [1 # 2; 9 # 10; 9 # 10])%nat ->
       [1 # 2; 9 # 10; 9 # 10] !! j = Some x -> (x < v)%Q).
Proof.
  apply (argmax_is_first_maximum [1 # 2; 9 # 10; 9 # 10]). discriminate.
Defined.

Lemma argmax_lt (xs : list Q) : xs <> [] -> (Merger.argmax xs < length xs)%nat.
Proof.
  destruct xs as [|x xs]; [contradiction|]. intros _. unfold Merger.argmax.
  destruct (argmax_from_spec xs [x] 0 x) as (v & Hv & _).
  - reflexivity.
  - intros [|[|?]] y Hj; simpl in Hj; try discriminate.
    injection Hj as <-. apply Qle_refl.
  - intros j y Hj. lia.
  - apply lookup_lt_Some in Hv. exact Hv.
Qed.

Lemma mask_k_area_counts (mask_labels : array2 nat) (k : nat) :
  Merger.mask_k_area mask_labels k
  = Z.of_nat (length (List.filter (fun l => (l =? k)%nat) (concat mask_labels))).
Proof.
  unfold Merger.mask_k_area, Merger.count_true. f_equal.
  rewrite <- concat_map. apply (length_filter_map _ (fun b : bool => b)).
Qed.

Lemma sum_indicator (l start n : nat) :
  fold_right Z.add 0 (map (fun k => if (l =? k)%nat then 1 else 0) (seq start n))
  = if (start <=? l)%nat && (l <? start + n)%nat then 1 else 0.
Proof.
  revert start. induction n as [|n IH]; intros start; cbn [seq map fold_right].
  - destruct (Nat.leb_spec start l), (Nat.ltb_spec l (start + 0)); simpl; lia.
  - rewrite IH.
    destruct (Nat.eqb_spec l start), (Nat.leb_spec (S start) l),
      (Nat.ltb_spec l (S start + n)), (Nat.leb_spec start l),
      (Nat.ltb_spec l (start + S n)); simpl; lia.
Qed.

Lemma sum_of_sums {A : Type} (f g : A -> Z) (ks : list A) :
  fold_right Z.add 0 (map (fun k => f k + g k) ks)
  = fold_right Z.add 0 (map f ks) + fold_right Z.add 0 (map g ks).
Proof.
  induction ks as [|k ks IH]; cbn [map fold_right]; [reflexivity|]. rewrite IH. lia.
Qed.

Lemma sum_of_counts (labels : list nat) (n : nat) :
  Forall (fun l => (l < n)%nat) labels ->
  fold_right Z.add 0
    (map (fun k => Z.of_nat (length (List.filter (fun l => (l =? k)%nat) labels)))
         (seq 0 n))
  = Z.of_nat (length labels).
Proof.
  induction labels as [|l labels IH]; intros Hall.
  - cbn [List.filter length]. induction (seq 0 n) as [|k ks IHk];
      cbn [map fold_right]; [reflexivity|now rewrite IHk].
  - apply Forall_cons in Hall as [Hl Hall]. specialize (IH Hall).
    rewrite (map_ext _
      (fun k => (if (l =? k)%nat then 1 else 0)
                + Z.of_nat (length (List.filter (fun l => (l =? k)%nat) labels)))).
    + rewrite sum_of_sums, IH, sum_indicator.
      destruct (Nat.leb_spec 0 l), (Nat.ltb_spec l (0 + n)); cbn [andb length]; lia.
    + intros k. cbn [List.filter]. destruct (l =? k)%nat; cbn [length]; lia.
Qed.

Lemma argmax0_cells (height width : nat) (mask_probs : list (array2 Q)) :
  mask_probs <> [] ->
  length (concat (Merger.argmax0 height width mask_probs)) = (height * width)%nat /\
  Forall (fun l => (l < length mask_probs)%nat)
         (concat (Merger.argmax0 height width mask_probs)).
Proof.
  intros Hne. unfold Merger.argmax0.
  rewrite <- (List.length_seq height 0) at 2.
  induction (seq 0 height) as [|i rows [IH1 IH2]]; simpl;
    [split; [reflexivity|constructor]|].
  rewrite length_app, length_map, List.length_seq, IH1. split; [reflexivity|].
  apply Forall_app. split; [|exact IH2].
  apply List.Forall_forall. intros l Hl. apply in_map_iff in Hl as (j & <- & _).
  pose proof (argmax_lt (map (fun plane => at2 0%Q plane i j) mask_probs)) as H.
  rewrite length_map in H. apply H.
  destruct mask_probs; [contradiction|discriminate].
Qed.

(** X15. The per-pixel assignment is a partition: when the list of planes
    that [argmax(0)] is taken of is not empty, every pixel of the
    [height] x [width] grid is won by exactly one of its queries, so the areas
    [mask_k_area] of the queries add up to [height * width]. *)
Theorem assigned_areas_add_up (height width : nat) (mask_probs : list (array2 Q)) :
  mask_probs <> [] ->
  assigned_pixels (Merger.argmax0 height width mask_probs) (length mask_probs)
  = Z.of_nat (height * width).
Proof.
  intros Hne. unfold assigned_pixels.
  destruct (argmax0_cells height width mask_probs Hne) as [Hlen Hall].
  rewrite <- Hlen, <- (sum_of_counts _ _ Hall).
  f_equal. apply map_ext. intros k. apply mask_k_area_counts.
Qed.

Lemma assigned_areas_add_up_witness :
  assigned_pixels
    (Merger.argmax0 1 3 [[[9 # 10; 0; 1 # 2]]; [[0; 8 # 10; 1 # 2]]]%Q)
    (length [[[9 # 10; 0; 1 # 2]]; [[0; 8 # 10; 1 # 2]]]%Q)
  = Z.of_nat (1 * 3).
Proof.
  apply (assigned_areas_add_up 1 3 [[[9 # 10; 0; 1 # 2]]; [[0; 8 # 10; 1 # 2]]]%Q).
  discriminate.
Defined.

(** ** Invariants of the results *)

Section ResultsInvariant.

Variable classes : list ClassSpec.
Variable height width : nat.
Variable overlap_mask_area_threshold : Q.

(** A property [P] of the object of an image that follows from an invariant
    [I] of the loop of lines 484-523. *)
Variable I : Merger.loop_state -> Prop.
Variable P : panoptic_result -> Prop.

Hypothesis I_initially : forall refs,
  I {| Merger.current_segment_id := 0;
       Merger.cur := {| segmentation := zeros2 0 height width; segments := [] |};
       Merger.stuff_memory_list := ∅;
       Merger.results := refs |}.
Hypothesis I_step : forall mask_probs pred_labels addr st k st',
  I st ->
  Merger.merge_step classes overlap_mask_area_threshold mask_probs
    (Merger.argmax0 height width mask_probs) pred_labels addr st k = Ok st' ->
  I st'.
Hypothesis I_gives_P : forall st, I st -> P (Merger.cur st).

Lemma loop_keeps_invariant (mask_probs : list (array2 Q)) (pred_labels : list nat)
    (addr : nat) (ks : list nat) (st st' : Merger.loop_state) :
  I st ->
  foldM (Merger.merge_step classes overlap_mask_area_threshold mask_probs
           (Merger.argmax0 height width mask_probs) pred_labels addr) ks st = Ok st' ->
  I st'.
Proof.
  revert st. induction ks as [|k ks IH]; intros st Hst; simpl.
  - intros H. now injection H as <-.
  - destruct (Merger.merge_step _ _ _ _ _ _ st k) as [st1|e] eqn:Hstep; simpl; [|discriminate].
    apply IH. exact (I_step _ _ _ _ _ _ Hst Hstep).
Qed.

Lemma image_keeps_invariant (num_labels : nat) (object_mask_threshold : Q)
    (st st' : Merger.store) (item : list (array2 Q) * list Q * list nat) :
  Forall P (Merger.objects st) ->
  Merger.merge_image classes height width num_labels
    object_mask_threshold overlap_mask_area_threshold st item = Ok st' ->
  Forall P (Merger.objects st').
Proof.
  intros Hall. destruct item as [[masks scores] labels]. unfold Merger.merge_image.
  destruct (Merger.remove_low_and_no_objects _ _ _ _ _) as [[[ms ss] ls]|e];
    simpl; [|discriminate].
  destruct (0 <? length ms)%nat.
  - destruct (foldM _ _ _) as [final|e] eqn:Hloop; simpl; [|discriminate].
    intros H. injection H as <-. simpl. apply Forall_app. split; [exact Hall|].
    constructor; [|constructor].
    apply I_gives_P. exact (loop_keeps_invariant _ _ _ _ _ _ (I_initially _) Hloop).
  - intros H. injection H as <-. simpl. apply Forall_app. split; [exact Hall|].
    constructor; [|constructor].
    exact (I_gives_P _ (I_initially [])).
Qed.

Lemma batch_keeps_invariant (num_labels : nat) (object_mask_threshold : Q)
    (items : list (list (array2 Q) * list Q * list nat)) (st st' : Merger.store) :
  Forall P (Merger.objects st) ->
  foldM (Merger.merge_image classes height width num_labels
           object_mask_threshold overlap_mask_area_threshold) items st = Ok st' ->
  Forall P (Merger.objects st').
Proof.
  revert st. induction items as [|item items IH]; intros st Hst; simpl.
  - intros H. now injection H as <-.
  - destruct (Merger.merge_image _ _ _ _ _ _ st item) as [st1|e] eqn:Himg;
      simpl; [|discriminate].
    apply IH. exact (image_keeps_invariant _ _ _ _ _ Hst Himg).
Qed.

End ResultsInvariant.

(** Every result that [post_process_panoptic_segmentation] returns has a
    property that follows from an invariant of the loop over the queries. *)
Lemma results_keep_invariant (classes : list ClassSpec) (outputs : decoded_outputs)
    (object_mask_threshold overlap_mask_area_threshold : Q)
    (I : Merger.loop_state -> Prop) (P : panoptic_result -> Prop)
    (rs : list panoptic_result) :
  (forall refs,
     I {| Merger.current_segment_id := 0;
          Merger.cur := {| segmentation := zeros2 0 (height outputs) (width outputs);
                           segments := [] |};
          Merger.stuff_memory_list := ∅;
          Merger.results := refs |}) ->
  (forall mask_probs pred_labels addr st k st',
     I st ->
     Merger.merge_step classes overlap_mask_area_threshold mask_probs
       (Merger.argmax0 (height outputs) (width outputs) mask_probs) pred_labels addr st k
       = Ok st' ->
     I st') ->
  (forall st, I st -> P (Merger.cur st)) ->
  Merger.post_process_panoptic_segmentation classes outputs
    object_mask_threshold overlap_mask_area_threshold = Ok rs ->
  Forall P rs.
Proof.
  intros Hinit Hstep HP. unfold Merger.post_process_panoptic_segmentation.
  destruct (foldM _ _ _) as [final|e] eqn:Hfold; simpl; [|discriminate].
  intros H. injection H as <-.
  apply (batch_keeps_invariant classes (height outputs) (width outputs)
           overlap_mask_area_threshold I P Hinit Hstep HP) in Hfold; [|constructor].
  rewrite Forall_forall in Hfold. apply Forall_forall. intros r Hr.
  apply list_elem_of_omap in Hr as (addr & _ & Hlook).
  apply Hfold. exact (list_elem_of_lookup_2 _ _ _ Hlook).
Qed.

(** What one turn of the loop does to the object of the image: nothing, or
    one masked assignment and one appended record. *)
Lemma merge_step_cases (classes : list ClassSpec) (threshold : Q)
    (mask_probs : list (array2 Q)) (mask_labels : array2 nat) (pred_labels : list nat)
    (addr : nat) (st st' : Merger.loop_state) (k : nat) :
  Merger.merge_step classes threshold mask_probs mask_labels pred_labels addr st k = Ok st' ->
  exists spec,
    classes !! nth k pred_labels 0%nat = Some spec /\
    ((Merger.current_segment_id st' = Merger.current_segment_id st /\
      Merger.cur st' = Merger.cur st /\
      Merger.stuff_memory_list st' = Merger.stuff_memory_list st) \/
     (let sid := match Merger.stuff_memory_list st !! nth k pred_labels 0%nat with
                 | Some sid => sid
                 | None => Merger.current_segment_id st + 1
                 end in
      Merger.current_segment_id st' = sid /\
      segmentation (Merger.cur st')
        = Merger.masked_assign (segmentation (Merger.cur st))
            (map (map (fun l => (l =? k)%nat)) mask_labels) sid /\
      segments (Merger.cur st')
        = segments (Merger.cur st)
          ++ [{| seg_id := sid; seg_category_id := nth k pred_labels 0%nat;
                 seg_is_thing := is_thing spec; seg_label := label spec |}] /\
      Merger.stuff_memory_list st'
        = if is_thing spec then Merger.stuff_memory_list st
          else <[nth k pred_labels 0%nat := sid]> (Merger.stuff_memory_list st))).
Proof.
  unfold Merger.merge_step.
  destruct (classes !! nth k pred_labels 0%nat) as [spec|]; simpl; [|discriminate].
  intros H. injection H as <-. exists spec. split; [reflexivity|]. simpl.
  destruct (_ && _); [|left; repeat split; reflexivity].
  destruct (Qlt_bool _ _); [|left; repeat split; reflexivity].
  right. simpl. rewrite negb_involutive.
  repeat split. now destruct (is_thing spec).
Qed.

Lemma masked_assign_has_shape (height width : nat)
    (segmentation : array2 Z) (mask_k : array2 bool) (v : Z) :
  has_shape height width segmentation -> has_shape height width mask_k ->
  has_shape height width (Merger.masked_assign segmentation mask_k v).
Proof.
  unfold has_shape, Merger.masked_assign.
  revert height mask_k. induction segmentation as [|row seg IH];
    intros height [|flags mask_k] [Hl1 Hr1] [Hl2 Hr2]; simpl in *;
    try (split; [congruence|constructor]); try lia.
  apply Forall_cons in Hr1 as [Hrow Hr1]. apply Forall_cons in Hr2 as [Hflags Hr2].
  destruct height as [|height]; [discriminate|].
  destruct (IH height mask_k) as [IH1 IH2]; [split; [lia|exact Hr1]|split; [lia|exact Hr2]|].
  split; [lia|]. constructor; [|exact IH2].
  rewrite length_zip_with. lia.
Qed.

Lemma mask_k_has_shape (height width : nat) (mask_probs : list (array2 Q)) (k : nat) :
  has_shape height width
    (map (map (fun l => (l =? k)%nat)) (Merger.argmax0 height width mask_probs)).
Proof.
  unfold has_shape, Merger.argmax0. rewrite !length_map, List.length_seq.
  split; [reflexivity|]. apply List.Forall_forall. intros row Hrow.
  apply in_map_iff in Hrow as (r0 & <- & Hr0).
  apply in_map_iff in Hr0 as (i & <- & _).
  now rewrite !length_map, List.length_seq.
Qed.

(** X16. Every segmentation map that [post_process_panoptic_segmentation]
    returns has [height] rows of [width] cells, the output grid of the
    model. *)
Theorem result_maps_have_grid_shape (classes : list ClassSpec) (outputs : decoded_outputs)
    (object_mask_threshold overlap_mask_area_threshold : Q) (rs : list panoptic_result) :
  Merger.post_process_panoptic_segmentation classes outputs
    object_mask_threshold overlap_mask_area_threshold = Ok rs ->
  Forall (fun r => has_shape (height outputs) (width outputs) (segmentation r)) rs.
Proof.
  apply (results_keep_invariant classes outputs _ _
           (fun st => has_shape (height outputs) (width outputs)
                        (segmentation (Merger.cur st)))).
  - intros refs. simpl. unfold has_shape, zeros2. rewrite repeat_length.
    split; [reflexivity|]. apply List.Forall_forall. intros row Hrow.
    apply repeat_spec in Hrow. subst row. apply repeat_length.
  - intros mask_probs pred_labels addr st k st' Hst Hstep.
    apply merge_step_cases in Hstep as (spec & _ & [(_ & -> & _)|(_ & -> & _)]);
      [exact Hst|].
    apply masked_assign_has_shape; [exact Hst|apply mask_k_has_shape].
  - auto.
Qed.

(** X17. Every segment record that is returned repeats the entry of its
    class in the table of classes: [category_id] has an entry, and
    [is_thing] and [label] are those of the entry. *)
Theorem segments_repeat_the_class_table (classes : list ClassSpec)
    (outputs : decoded_outputs)
    (object_mask_threshold overlap_mask_area_threshold : Q) (rs : list panoptic_result) :
  Merger.post_process_panoptic_segmentation classes outputs
    object_mask_threshold overlap_mask_area_threshold = Ok rs ->
  Forall (fun r => Forall (in_table classes) (segments r)) rs.
Proof.
  apply (results_keep_invariant classes outputs _ _
           (fun st => Forall (in_table classes) (segments (Merger.cur st)))).
  - intros refs. constructor.
  - intros mask_probs pred_labels addr st k st' Hst Hstep.
    apply merge_step_cases in Hstep as (spec & Hspec & [(_ & -> & _)|(_ & _ & -> & _)]);
      [exact Hst|].
    apply Forall_app. split; [exact Hst|].
    constructor; [|constructor]. exists spec. simpl. auto.
  - auto.
Qed.

(** X18. In every result the ids of the segment records lie between 1 and
    the number of records of that result: the counter of line 509 never runs
    ahead of the appends of line 512. *)
Theorem segment_ids_are_within_the_count (classes : list ClassSpec)
    (outputs : decoded_outputs)
    (object_mask_threshold overlap_mask_area_threshold : Q) (rs : list panoptic_result) :
  Merger.post_process_panoptic_segmentation classes outputs
    object_mask_threshold overlap_mask_area_threshold = Ok rs ->
  Forall ids_within rs.
Proof.
  apply (results_keep_invariant classes outputs _ _ counter_invariant).
  - intros refs. unfold counter_invariant, ids_within. simpl.
    split; [lia|]. split; [|constructor].
    intros c sid H. now rewrite lookup_empty in H.
  - intros mask_probs pred_labels addr st k st' (Hid & Hmem & Hids) Hstep.
    apply merge_step_cases in Hstep
      as (spec & _ & [(Hc & Hcur & Hm)|(Hc & _ & Hsegs & Hm)]).
    + unfold counter_invariant. rewrite Hc, Hcur, Hm. auto.
    + cbv zeta in Hc, Hsegs, Hm.
      set (sid := match Merger.stuff_memory_list st !! nth k pred_labels 0%nat with
                  | Some sid => sid
                  | None => Merger.current_segment_id st + 1
                  end) in *.
      assert (Hsid : 1 <= sid <= Z.of_nat (length (segments (Merger.cur st))) + 1).
      { unfold sid. destruct (Merger.stuff_memory_list st !! _) as [s|] eqn:E.
        - specialize (Hmem _ _ E). lia.
        - lia. }
      unfold counter_invariant, ids_within. rewrite Hc, Hsegs, Hm, length_app. simpl.
      replace (Z.of_nat (length (segments (Merger.cur st)) + 1))
        with (Z.of_nat (length (segments (Merger.cur st))) + 1) by lia.
      split; [lia|]. split.
      * intros c s. destruct (is_thing spec).
        -- intros E. specialize (Hmem _ _ E). lia.
        -- destruct (decide (nth k pred_labels 0%nat = c)) as [->|Hne].
           ++ rewrite lookup_insert_eq. intros [= <-]. lia.
           ++ rewrite lookup_insert_ne by assumption.
              intros E. specialize (Hmem _ _ E). lia.
      * apply Forall_app. split.
        -- unfold ids_within in Hids. eapply Forall_impl; [exact Hids|].
           simpl. intros s Hs. lia.
        -- constructor; [simpl; lia|constructor].
  - intros st (_ & _ & H). exact H.
Qed.

Lemma example_runs :
  Merger.post_process_panoptic_segmentation example_classes example_outputs
    (8 # 10) (8 # 10) = Ok [example_result; example_result].
Proof. vm_compute. reflexivity. Qed.

Lemma result_maps_have_grid_shape_witness :
  Forall (fun r => has_shape 3 3 (segmentation r)) [example_result; example_result].
Proof.
  exact (result_maps_have_grid_shape example_classes example_outputs (8 # 10) (8 # 10)
           [example_result; example_result] example_runs).
Defined.

Lemma segments_repeat_the_class_table_witness :
  Forall (fun r => Forall (in_table example_classes) (segments r))
    [example_result; example_result].
Proof.
  exact (segments_repeat_the_class_table example_classes example_outputs (8 # 10) (8 # 10)
           [example_result; example_result] example_runs).
Defined.

Lemma segment_ids_are_within_the_count_witness :
  Forall ids_within [example_result; example_result].
Proof.
  exact (segment_ids_are_within_the_count example_classes example_outputs (8 # 10) (8 # 10)
           [example_result; example_result] example_runs).
Defined.

(** X19. In every result that is returned, every cell of the segmentation
    map is 0 or the id of a segment record of the same result: the map
    never holds an id that the segment list does not explain. *)
Theorem map_cells_are_emitted_ids (classes : list ClassSpec) (outputs : decoded_outputs)
    (object_mask_threshold overlap_mask_area_threshold : Q) (rs : list panoptic_result) :
  Merger.post_process_panoptic_segmentation classes outputs
    object_mask_threshold overlap_mask_area_threshold = Ok rs ->
  forall r row cell, In r rs -> In row (segmentation r) -> In cell row ->
    cell = 0 \/ exists s, In s (segments r) /\ seg_id s = cell.
Proof.
  intros Hrun r row cell Hr.
  pose proof (results_are_covered _ _ _ _ _ Hrun) as Hall.
  rewrite List.Forall_forall in Hall. destruct (Hall r Hr) as [_ Hcov]. apply Hcov.
Qed.

Lemma map_cells_are_emitted_ids_witness :
  let row := nth 0%nat (segmentation example_result) [] in
  let cell := nth 2%nat row 0 in
  In example_result [example_result; example_result] /\
  In row (segmentation example_result) /\ In cell row /\
  (cell = 0 \/ exists s, In s (segments example_result) /\ seg_id s = cell).
Proof.
  intros row cell.
  assert (Hr : In example_result [example_result; example_result]) by (left; reflexivity).
  assert (Hrow : In row (segmentation example_result)) by (left; reflexivity).
  assert (Hcell : In cell row) by (right; right; left; reflexivity).
  repeat split; try assumption.
  exact (map_cells_are_emitted_ids example_classes example_outputs (8 # 10) (8 # 10)
           [example_result; example_result] example_runs example_result row cell
           Hr Hrow Hcell).
Defined.

(** X20. When [post_process_panoptic_segmentation] returns, its list holds
    for each image of the batch, in order, as many entries as the image has
    queries that survive the filtering, all of them the one object of that
    image; an image without a surviving query has no entry, and the length of
    the list is the number of surviving queries of the batch. *)
Theorem results_are_one_per_surviving_query (classes : list ClassSpec)
    (outputs : decoded_outputs)
    (object_mask_threshold overlap_mask_area_threshold : Q) (rs : list panoptic_result) :
  Merger.post_process_panoptic_segmentation classes outputs
    object_mask_threshold overlap_mask_area_threshold = Ok rs ->
  let items := zip3 (mask_probs outputs) (pred_scores outputs) (pred_labels outputs) in
  let counts := map (survivors object_mask_threshold (num_labels outputs)) items in
  (exists objs,
     length objs = length items /\
     rs = flat_map (fun '(obj, n) => repeat obj n) (combine objs counts)) /\
  length rs = fold_right Nat.add 0%nat counts.
Proof.
  intros Hrun items counts.
  destruct (results_follow_surviving_queries _ _ _ _ _ Hrun) as (objs & Hlen & Hrs).
  fold items in Hlen, Hrs. fold counts in Hrs.
  split; [exists objs; split; assumption|].
  rewrite Hrs. assert (Hc : length objs = length counts)
    by (unfold counts; now rewrite length_map).
  clear Hrs Hlen Hrun. revert objs Hc.
  induction counts as [|n counts IH]; intros [|obj objs] Hc; simpl in *;
    try discriminate; [reflexivity|].
  rewrite length_app, repeat_length, IH by lia. reflexivity.
Qed.

Lemma results_are_one_per_surviving_query_witness :
  let items := zip3 (mask_probs example_outputs) (pred_scores example_outputs)
                 (pred_labels example_outputs) in
  let counts := map (survivors (8 # 10) (num_labels example_outputs)) items in
  (exists objs,
     length objs = length items /\
     [example_result; example_result]
     = flat_map (fun '(obj, n) => repeat obj n) (combine objs counts)) /\
  length [example_result; example_result] = fold_right Nat.add 0%nat counts.
Proof.
  exact (results_are_one_per_surviving_query example_classes example_outputs
           (8 # 10) (8 # 10) [example_result; example_result] example_runs).
Defined.

(** ** When the Merger returns *)

Lemma foldM_returns_iff {A S : Type} (body : S -> A -> result S) (ok : A -> Prop)
    (xs : list A) (s : S) :
  (forall s x, returns (body s x) <-> ok x) ->
  returns (foldM body xs s) <-> Forall ok xs.
Proof.
  intros Hbody. revert s. induction xs as [|x xs IH]; intros s; simpl.
  - split; [constructor|]. intros _. now exists s.
  - rewrite Forall_cons. destruct (body s x) as [s'|e] eqn:Hb; simpl.
    + rewrite IH, <- (Hbody s x), Hb. split; [intros H; split; [now exists s'|exact H]|tauto].
    + split.
      * intros [v Hv]. discriminate.
      * intros [Hx _]. apply (Hbody s x) in Hx. rewrite Hb in Hx.
        destruct Hx as [v Hv]. discriminate.
Qed.

Lemma merge_step_returns_iff (classes : list ClassSpec) (threshold : Q)
    (mask_probs : list (array2 Q)) (mask_labels : array2 nat) (pred_labels : list nat)
    (addr : nat) (st : Merger.loop_state) (k : nat) :
  returns (Merger.merge_step classes threshold mask_probs mask_labels pred_labels addr st k)
  <-> (nth k pred_labels 0%nat < length classes)%nat.
Proof.
  unfold Merger.merge_step.
  destruct (classes !! nth k pred_labels 0%nat) as [spec|] eqn:E; simpl.
  - apply lookup_lt_Some in E. split; [intros _; exact E|]. intros _. eexists. reflexivity.
  - apply lookup_ge_None in E. split; [|lia]. intros [v Hv]. discriminate.
Qed.

Lemma Forall_seq_nth (ok : nat -> Prop) (l : list nat) :
  Forall (fun k => ok (nth k l 0%nat)) (seq 0 (length l)) <-> Forall ok l.
Proof.
  rewrite !List.Forall_forall. split.
  - intros H x Hx. apply (In_nth _ _ 0%nat) in Hx as (k & Hk & <-).
    apply H. apply in_seq. lia.
  - intros H k Hk. apply in_seq in Hk. apply H. apply nth_In. lia.
Qed.

Lemma merge_image_returns_iff (classes : list ClassSpec) (height width num_labels : nat)
    (object_mask_threshold overlap_mask_area_threshold : Q)
    (st : Merger.store) (item : list (array2 Q) * list Q * list nat) :
  returns (Merger.merge_image classes height width num_labels
             object_mask_threshold overlap_mask_area_threshold st item)
  <-> fits classes object_mask_threshold num_labels item.
Proof.
  destruct item as [[masks scores] labels]. unfold Merger.merge_image, fits.
  destruct (remove_low_cases masks scores labels object_mask_threshold num_labels)
    as [(H1 & H2 & ->)|(Hne & ->)]; simpl.
  - set (kept := Spec.filtering object_mask_threshold num_labels (zip3 masks scores labels)).
    assert (Hlabels : Forall (fun k => (nth k (map snd kept) 0 < length classes)%nat)
                        (seq 0 (length (map snd kept)))
                      <-> Forall (fun q => (snd q < length classes)%nat) kept).
    { rewrite (Forall_seq_nth (fun l => (l < length classes)%nat) (map snd kept)).
      apply Forall_map. }
    destruct (0 <? _)%nat eqn:Hdetect.
    + match goal with
      | |- returns (bind (foldM ?body ?ks ?s) _) <-> _ =>
          pose proof (foldM_returns_iff body
                        (fun k => (nth k (map snd kept) 0 < length classes)%nat) ks s
                        ltac:(intros; apply merge_step_returns_iff)) as Hloop
      end.
      rewrite Hlabels in Hloop.
      destruct (foldM _ _ _) as [final|e]; simpl.
      * split; [intros _|intros _; eexists; reflexivity].
        split; [exact H1|]. split; [exact H2|]. apply Hloop. now exists final.
      * split; [intros [v Hv]; discriminate|].
        intros (_ & _ & Hall). apply Hloop in Hall. destruct Hall as [v Hv]. discriminate.
    + split; [intros _|intros _; eexists; reflexivity].
      split; [exact H1|]. split; [exact H2|].
      apply Nat.ltb_ge in Hdetect. rewrite length_map in Hdetect.
      destruct kept; [constructor|simpl in Hdetect; lia].
  - split; [intros [v Hv]; discriminate|]. intros (H1 & H2 & _). tauto.
Qed.

(** X21. [post_process_panoptic_segmentation] returns exactly when the
    queries of every image fit: the masks, scores and labels of the image
    have one length, and the class of every query that survives the filtering
    has an entry in the table of classes. Otherwise it raises, and no image
    of the batch gets a result. *)
Theorem merger_returns_iff_queries_fit (classes : list ClassSpec)
    (outputs : decoded_outputs)
    (object_mask_threshold overlap_mask_area_threshold : Q) :
  returns (Merger.post_process_panoptic_segmentation classes outputs
             object_mask_threshold overlap_mask_area_threshold)
  <-> Forall (fits classes object_mask_threshold (num_labels outputs))
        (zip3 (mask_probs outputs) (pred_scores outputs) (pred_labels outputs)).
Proof.
  unfold Merger.post_process_panoptic_segmentation.
  rewrite <- (foldM_returns_iff
                (Merger.merge_image classes (height outputs) (width outputs)
                   (num_labels outputs) object_mask_threshold overlap_mask_area_threshold)
                (fits classes object_mask_threshold (num_labels outputs)) _
                {| Merger.objects := []; Merger.refs := [] |})
    by (intros; apply merge_image_returns_iff).
  destruct (foldM _ _ _) as [final|e]; simpl.
  - split; intros _; eexists; reflexivity.
  - split; intros [v Hv]; discriminate.
Qed.

Lemma merger_returns_iff_queries_fit_witness :
  returns (Merger.post_process_panoptic_segmentation example_classes example_outputs
             (8 # 10) (8 # 10)).
Proof.
  apply (proj2 (merger_returns_iff_queries_fit example_classes example_outputs
                  (8 # 10) (8 # 10))).
  constructor; [|constructor].
  split; [reflexivity|]. split; [reflexivity|].
  simpl. repeat constructor.
Defined.

(** ** Segmentation Decoder *)

Lemma nth_probability (l : list Q) (i : nat) :
  (forall p, In p l -> (0 <= p <= 1)%Q) -> (0 <= nth i l 0 <= 1)%Q.
Proof.
  intros H. destruct (Nat.lt_ge_cases i (length l)) as [Hi|Hi].
  - apply H. now apply nth_In.
  - rewrite nth_overflow by lia. split; [apply Qle_refl|discriminate].
Qed.

Lemma In_nth_in {A : Type} (l : list (list A)) (i : nat) (x : A) :
  In x (nth i l []) -> In (nth i l []) l.
Proof.
  intros Hx. destruct (Nat.lt_ge_cases i (length l)) as [Hi|Hi].
  - now apply nth_In.
  - rewrite nth_overflow in Hx by lia. destruct Hx.
Qed.

Lemma In_removelast {A : Type} (l : list A) (x : A) : In x (removelast l) -> In x l.
Proof.
  induction l as [|a [|b l] IH]; simpl in *; tauto.
Qed.

Lemma sum_over_bounds (n : nat) (f : nat -> Q) :
  (forall i, (0 <= f i <= 1)%Q) ->
  (0 <= Decoder.sum_over n f <= inject_Z (Z.of_nat n))%Q.
Proof.
  intros Hf. unfold Decoder.sum_over.
  assert (Hgen : forall l : list nat,
    (0 <= fold_right Qplus 0 (map f l) <= inject_Z (Z.of_nat (length l)))%Q).
  { induction l as [|i l IH]; cbn [map fold_right length].
    - split; apply Qle_refl.
    - destruct (Hf i) as [H0 H1]. destruct IH as [I0 I1].
      rewrite Nat2Z.inj_succ, <- Z.add_1_r, inject_Z_plus.
      change (inject_Z 1) with 1%Q. split; lra. }
  specialize (Hgen (seq 0 n)). now rewrite List.length_seq in Hgen.
Qed.

Lemma nth_removelast (l : list Q) (i : nat) :
  (i < length l - 1)%nat -> nth i (removelast l) 0%Q = nth i l 0%Q.
Proof.
  revert i. induction l as [|x [|y l] IH]; intros i Hi; simpl in *; try lia.
  destruct i as [|i]; [reflexivity|]. apply IH. lia.
Qed.

(** An entry of a class other than the null class is not touched by the
    slice of line 394. *)
Lemma at3_drop_null_class (t : tensor3) (b q c ib iq ic : nat) :
  shape3 t = (b, q, c) -> fills3 t -> (ic < c - 1)%nat ->
  at3 0%Q (data3 (Decoder.drop_null_class t)) ib iq ic = at3 0%Q (data3 t) ib iq ic.
Proof.
  intros Hshape Hfill Hic. unfold fills3 in Hfill. rewrite Hshape in Hfill.
  destruct Hfill as [_ Himages].
  unfold Decoder.drop_null_class. rewrite Hshape. cbn [data3]. unfold at3.
  change (@nil (list Q)) with (map (@removelast Q) []) at 1.
  rewrite map_nth.
  change (@nil Q) with (@removelast Q []) at 1.
  rewrite map_nth.
  destruct (Nat.lt_ge_cases ib (length (data3 t))) as [Hib|Hib];
    [|now rewrite (nth_overflow (data3 t)) by lia; destruct iq].
  rewrite List.Forall_forall in Himages.
  destruct (Himages (nth ib (data3 t) []) (nth_In _ _ Hib)) as [_ Hrows].
  destruct (Nat.lt_ge_cases iq (length (nth ib (data3 t) []))) as [Hiq|Hiq];
    [|now rewrite (nth_overflow (nth ib (data3 t) [])) by lia].
  rewrite List.Forall_forall in Hrows.
  apply nth_removelast. rewrite (Hrows _ (nth_In _ _ Hiq)). exact Hic.
Qed.

Lemma broadcast_same (n : nat) : Decoder.broadcast n n = Ok n.
Proof. unfold Decoder.broadcast. now rewrite Nat.eqb_refl. Qed.

(** X22. For the softmax and sigmoid of one model output, tensors of the
    shapes [(b, q, c)] and [(b, q, h, w)], [post_process_segmentation]
    returns a tensor of the shape [(b, c - 1, h, w)] that has a cell for
    every index below that shape. When the entries of the two tensors are
    probabilities, every value of the result lies between 0 and the number
    of queries; and the result does not depend on the probabilities of the
    null class: two softmax tensors that agree on the other classes give the
    same result. *)
Theorem decoder_output_shape_and_range (outputs : decoder_inputs) (b q c h w : nat) :
  shape3 (class_probs outputs) = (b, q, c) ->
  shape4 (masks_probs outputs) = (b, q, h, w) ->
  exists out,
    Decoder.post_process_segmentation outputs = Ok out /\
    shape4 out = (b, (c - 1)%nat, h, w) /\
    fills4 out /\
    (probabilities outputs ->
     forall image plane row v,
       In image (data4 out) -> In plane image -> In row plane -> In v row ->
       (0 <= v <= inject_Z (Z.of_nat q))%Q) /\
    (forall others,
       shape3 (class_probs others) = (b, q, c) ->
       masks_probs others = masks_probs outputs ->
       fills3 (class_probs outputs) -> fills3 (class_probs others) ->
       same_classes (c - 1) (class_probs outputs) (class_probs others) ->
       Decoder.post_process_segmentation others = Ok out).
Proof.
  intros Hs3 Hs4.
  unfold Decoder.post_process_segmentation, Decoder.einsum_bqc_bqhw.
  unfold Decoder.drop_null_class at 1. rewrite Hs3, Hs4. cbn [shape3].
  rewrite !broadcast_same. cbn [bind].
  eexists. split; [reflexivity|]. split; [reflexivity|]. split; [|split].
  - unfold fills4. cbn [shape4 data4].
    split; [now rewrite length_map, List.length_seq|].
    apply List.Forall_forall. intros image Hi. apply in_map_iff in Hi as (ib & <- & _).
    split; [now rewrite length_map, List.length_seq|].
    apply List.Forall_forall. intros plane Hp. apply in_map_iff in Hp as (ic & <- & _).
    unfold has_shape. rewrite length_map, List.length_seq. split; [reflexivity|].
    apply List.Forall_forall. intros row Hr. apply in_map_iff in Hr as (ih & <- & _).
    now rewrite length_map, List.length_seq.
  - intros [Hc Hm] image plane row v Hi Hp Hr Hv. cbn [data4] in Hi.
    apply in_map_iff in Hi as (ib & <- & _).
    apply in_map_iff in Hp as (ic & <- & _). apply in_map_iff in Hr as (ih & <- & _).
    apply in_map_iff in Hv as (iw & <- & _).
    apply sum_over_bounds. intros iq.
    set (jb := Decoder.broadcast_index b ib). set (jq := Decoder.broadcast_index q iq).
    assert (Hclass : (0 <= nth ic (nth jq (nth jb (data3 (Decoder.drop_null_class
                        (class_probs outputs))) []) []) 0 <= 1)%Q).
    { apply nth_probability. intros p Hp. unfold Decoder.drop_null_class in Hp.
      rewrite Hs3 in Hp. cbn [data3] in Hp.
      pose proof (In_nth_in _ _ _ Hp) as Hrow.
      pose proof (In_nth_in _ _ _ Hrow) as Himg.
      apply in_map_iff in Himg as (img & Himg & Hin). rewrite <- Himg in Hrow, Hp.
      apply in_map_iff in Hrow as (row & Hrow & Hrin). rewrite <- Hrow in Hp.
      apply (Hc img row p Hin Hrin). now apply In_removelast. }
    assert (Hmask : (0 <= at2 0 (nth jq (nth jb (data4 (masks_probs outputs)) []) [])
                          ih iw <= 1)%Q).
    { unfold at2. apply nth_probability. intros p Hp.
      pose proof (In_nth_in _ _ _ Hp) as Hrow.
      pose proof (In_nth_in _ _ _ Hrow) as Hplane.
      pose proof (In_nth_in _ _ _ Hplane) as Himg.
      exact (Hm _ _ _ p Himg Hplane Hrow Hp). }
    destruct Hclass as [C0 C1]. destruct Hmask as [M0 M1]. split; nra.
  - intros others Hs3' Hmasks Hfill Hfill' Hsame.
    unfold Decoder.drop_null_class at 1. rewrite Hs3', Hmasks, Hs4. cbn [shape3].
    rewrite !broadcast_same. cbn [bind]. do 2 f_equal.
    apply map_ext. intros ib. apply map_ext_in. intros ic Hic. apply in_seq in Hic.
    apply map_ext. intros ih. apply map_ext. intros iw.
    unfold Decoder.sum_over. f_equal. apply map_ext. intros iq.
    f_equal.
    pose proof (at3_drop_null_class (class_probs others) b q c
                  (Decoder.broadcast_index b ib) (Decoder.broadcast_index q iq) ic
                  Hs3' Hfill' ltac:(lia)) as H'.
    pose proof (at3_drop_null_class (class_probs outputs) b q c
                  (Decoder.broadcast_index b ib) (Decoder.broadcast_index q iq) ic
                  Hs3 Hfill ltac:(lia)) as H.
    unfold at3 in H, H'. rewrite H, H'. apply Hsame. lia.
Qed.

(** One image, two queries, one class and the null class, on 1 x 2 pixels;
    and a second tensor of class probabilities that differs from the first
    in the null class only. *)
Lemma decoder_output_shape_and_range_witness :
  let masks :=
    {| shape4 := (1, 2, 1, 2)%nat; data4 := [[[[1; 1 # 2]]; [[0; 1]]]]%Q |} in
  let outputs :=
    {| class_probs :=
         {| shape3 := (1, 2, 2)%nat; data3 := [[[9 # 10; 1 # 10]; [2 # 10; 8 # 10]]]%Q |};
       masks_probs := masks |} in
  let others :=
    {| class_probs :=
         {| shape3 := (1, 2, 2)%nat; data3 := [[[9 # 10; 0]; [2 # 10; 1 # 2]]]%Q |};
       masks_probs := masks |} in
  exists out,
    Decoder.post_process_segmentation outputs = Ok out /\
    shape4 out = (1, 1, 1, 2)%nat /\
    fills4 out /\
    (forall image plane row v,
       In image (data4 out) -> In plane image -> In row plane -> In v row ->
       (0 <= v <= 2)%Q) /\
    Decoder.post_process_segmentation others = Ok out.
Proof.
  intros masks outputs others.
  destruct (decoder_output_shape_and_range outputs 1 2 2 1 2 eq_refl eq_refl)
    as (out & Hrun & Hshape & Hfills & Hrange & Hnull).
  exists out. split; [exact Hrun|]. split; [exact Hshape|]. split; [exact Hfills|].
  split.
  - apply Hrange. split.
    + intros image row p Hi Hr Hp. simpl in Hi.
      destruct Hi as [<-|[]]. simpl in Hr.
      destruct Hr as [<-|[<-|[]]]; simpl in Hp;
        destruct Hp as [<-|[<-|[]]]; split; vm_compute; discriminate.
    + intros image plane row p Hi Hpl Hr Hp. simpl in Hi.
      destruct Hi as [<-|[]]. simpl in Hpl.
      destruct Hpl as [<-|[<-|[]]]; simpl in Hr;
        destruct Hr as [<-|[]]; simpl in Hp;
        destruct Hp as [<-|[<-|[]]]; split; vm_compute; discriminate.
  - apply (Hnull others).
    + reflexivity.
    + reflexivity.
    + unfold fills3. simpl. repeat constructor.
    + unfold fills3. simpl. repeat constructor.
    + intros [|[|ib]] [|[|[|iq]]] [|ic] Hic; try lia; reflexivity.
Defined.

(** ** The entry point, continued *)


Section EntryPointChecks.

Context {image_t : Type}.
Variable is_pil_image : image_t -> bool.
Variable to_pil_image : image_t -> result image_t.
Variable image_size : image_t -> Z * Z.
Variable resize : image_t -> Z * Z -> result image_t.
Variable interpolate_nearest : ndarray bool -> Z -> Z -> result (ndarray bool).
Variable normalize : image_t -> list Q -> list Q -> result image_t.
Variable to_array : image_t -> result (ndarray Q).
Variable torch_available : bool.

Lemma transform_pairs_keeps_labels
    (f : image_t -> option annotation -> result (image_t * option annotation))
    (images images' : list image_t) (anns anns' : list annotation) :
  (forall i t i' t', f i (Some t) = Ok (i', t') ->
     exists t'', t' = Some t'' /\ ann_labels t'' = ann_labels t) ->
  Extractor.transform_pairs image_t f images anns = Ok (images', anns') ->
  length images' = length images /\ map ann_labels anns' = map ann_labels anns.
Proof.
  intros Hf. revert anns images' anns'.
  induction images as [|i images IH]; intros [|t anns] images' anns'; simpl;
    try (intros H; injection H as <- <-; split; reflexivity).
  destruct (f i (Some t)) as [[i1 t1]|e] eqn:Hfi; simpl; [|discriminate].
  destruct (Extractor.transform_pairs image_t f images anns) as [[is1 as1]|e] eqn:Hrec;
    simpl; [|discriminate].
  intros H. injection H as <- <-.
  destruct (IH _ _ _ Hrec) as [Hlen Hlabels].
  destruct (Hf _ _ _ _ Hfi) as (t'' & -> & Ht). simpl.
  split; [now rewrite Hlen|now rewrite Ht, Hlabels].
Qed.

Lemma mapM_length {A B : Type} (f : A -> result B) (xs : list A) (ys : list B) :
  mapM f xs = Ok ys -> length ys = length xs.
Proof.
  revert ys. induction xs as [|x xs IH]; intros ys; simpl.
  - intros H. now injection H as <-.
  - destruct (f x) as [y|e]; simpl; [|discriminate].
    destruct (mapM f xs) as [ys'|e]; simpl; [|discriminate].
    intros H. injection H as <-. simpl. now rewrite (IH ys').
Qed.

Lemma _resize_keeps_labels (i : image_t) (sz : Resizer.size_arg) (t : annotation)
    (cap : option Z) (i' : image_t) (t' : option annotation) :
  Extractor._resize image_t is_pil_image to_pil_image image_size resize
    interpolate_nearest i sz (Some t) cap = Ok (i', t') ->
  exists t'', t' = Some t'' /\ ann_labels t'' = ann_labels t.
Proof.
  unfold Extractor._resize.
  destruct (if is_pil_image i then Ok i else to_pil_image i) as [p|e]; simpl; [|discriminate].
  destruct (Resizer.get_size _ _ _) as [[w h]|e]; simpl; [|discriminate].
  destruct (resize p (w, h)) as [p'|e]; simpl; [|discriminate].
  destruct (ann_masks t) as [m|]; simpl.
  - destruct (interpolate_nearest m h w) as [m'|e]; simpl; [|discriminate].
    intros H. injection H as <- <-. eexists. split; reflexivity.
  - intros H. injection H as <- <-. eexists. split; reflexivity.
Qed.

Lemma _normalize_keeps_labels (i : image_t) (mean std : list Q) (t : annotation)
    (i' : image_t) (t' : option annotation) :
  Extractor._normalize image_t normalize i mean std (Some t) = Ok (i', t') ->
  exists t'', t' = Some t'' /\ ann_labels t'' = ann_labels t.
Proof.
  unfold Extractor._normalize.
  destruct (normalize i mean std) as [p|e]; simpl; [|discriminate].
  intros H. injection H as <- <-. eexists. split; reflexivity.
Qed.

(** One loop of the transformations, when it returns. *)
Ltac one_loop :=
  match goal with
  | |- context [Extractor.transform_pairs _ ?f ?l ?a] =>
      let H := fresh "Hloop" in
      destruct (Extractor.transform_pairs _ f l a) as [[? ?]|?] eqn:H;
      simpl; [|discriminate];
      apply transform_pairs_keeps_labels in H as [? ?];
      [|intros; first [ eapply _resize_keeps_labels; eassumption
                      | eapply _normalize_keeps_labels; eassumption ]]
  | |- context [mapM ?f ?l] =>
      let H := fresh "Hloop" in
      destruct (mapM f l) as [?|?] eqn:H; simpl; [|discriminate];
      apply mapM_length in H
  end.

(** X24. The transformations of lines 252-274 keep the batch aligned: when
    they return, there are as many images as before, annotations are present
    exactly if they were given, and the class labels of the annotations are
    the given ones in the given order, whatever resizing and normalization
    do to the images and the masks. *)
Theorem transformations_keep_labels (self : MaskFormerFeatureExtractor)
    (images images' : list image_t) (annotations annotations' : option (list annotation)) :
  Extractor.transformations image_t is_pil_image to_pil_image image_size resize
    interpolate_nearest normalize self images annotations = Ok (images', annotations') ->
  length images' = length images /\
  option_map (map ann_labels) annotations' = option_map (map ann_labels) annotations.
Proof.
  unfold Extractor.transformations.
  destruct (do_resize self); [destruct (size self) as [sz|]|];
    destruct annotations as [anns|]; simpl;
    try one_loop;
    destruct (do_normalize self); simpl;
    try one_loop;
    intros Hrun; injection Hrun as <- <-; simpl; split; congruence.
Qed.

(** [encode_inputs] takes its arguments by position or under the names of
    lines 303-306, with the defaults [annotations=None],
    [pad_and_return_pixel_mask=True] and [return_tensors=None]: a call that
    names the padding flag [pad_and_return_pixel_mask] runs the body on the
    given values, and so does a call that passes the images alone. *)
Lemma encode_inputs_binds_its_parameters
    (images : list image_t) (annotations : option (list annotation))
    (pad : bool) (return_tensors : return_tensors_arg) :
  Extractor.call_encode_inputs image_t to_array torch_available
    [Extractor.VImages image_t images; Extractor.VAnnotations image_t annotations]
    [("pad_and_return_pixel_mask", Extractor.VBool image_t pad);
     ("return_tensors", Extractor.VReturnTensors image_t return_tensors)]
  = (let* pixel_values_list := mapM to_array images in
     Packer.encode_inputs torch_available pixel_values_list annotations pad return_tensors) /\
  Extractor.call_encode_inputs image_t to_array torch_available
    [Extractor.VImages image_t images] []
  = (let* pixel_values_list := mapM to_array images in
     Packer.encode_inputs torch_available pixel_values_list None true RtNone).
Proof. split; reflexivity. Qed.

Lemma bind_positional_raises (params : Call.parameters (value := Extractor.value image_t))
    (positional : list (Extractor.value image_t)) (e : exn) :
  Call.bind_positional params positional = Raise e -> exists msg, e = TypeError msg.
Proof.
  revert params. induction positional as [|v vs IH]; intros params.
  - destruct params as [|[name dflt] ps]; discriminate.
  - destruct params as [|[name dflt] ps]; simpl.
    + intros Hraise. injection Hraise as <-. eauto.
    + destruct (Call.bind_positional ps vs) as [env|e'] eqn:Hb; simpl.
      * discriminate.
      * intros Hraise. injection Hraise as <-. now apply (IH ps).
Qed.

Lemma unknown_keyword_raises (fname : string)
    (params : Call.parameters (value := Extractor.value image_t))
    (keywords : list (string * Extractor.value image_t))
    (name : string) (v : Extractor.value image_t) :
  In (name, v) keywords -> ~ In name (map fst params) ->
  forall env, exists msg,
    foldM (Call.bind_keyword fname params) keywords env = Raise (TypeError msg).
Proof.
  intros Hin Hunknown.
  assert (Hno : existsb (String.eqb name) (map fst params) = false).
  { destruct (existsb (String.eqb name) (map fst params)) eqn:Hex; [|reflexivity].
    apply existsb_exists in Hex as (x & Hx & Heq).
    apply String.eqb_eq in Heq. subst x. contradiction. }
  induction keywords as [|[k w] kws IH]; intros env; [destruct Hin|].
  cbn [foldM]. unfold Call.bind_keyword at 1.
  destruct (negb (existsb (String.eqb k) (map fst params))) eqn:Hk; simpl.
  - eauto.
  - destruct Hin as [Heq|Hin].
    + injection Heq as -> ->. rewrite Hno in Hk. discriminate.
    + destruct (env !! k); simpl; [eauto|]. now apply IH.
Qed.

(** X25. [encode_inputs] has neither [*args] nor [**kwargs]: whatever else
    is passed, a call with a keyword that is not one of the four parameter
    names of lines 303-306 raises [TypeError], and the body does not run. *)
Theorem encode_inputs_rejects_unknown_keywords
    (positional : list (Extractor.value image_t))
    (keywords : list (string * Extractor.value image_t))
    (name : string) (v : Extractor.value image_t) :
  In (name, v) keywords ->
  ~ In name ["pixel_values_list"; "annotations"; "pad_and_return_pixel_mask";
             "return_tensors"]%string ->
  exists msg,
    Extractor.call_encode_inputs image_t to_array torch_available positional keywords
    = Raise (TypeError msg).
Proof.
  intros Hin Hunknown.
  unfold Extractor.call_encode_inputs, Call.bind_arguments.
  destruct (Call.bind_positional (Extractor.encode_inputs_params image_t) positional)
    as [env|e] eqn:Hpos; cbn [bind].
  - destruct (unknown_keyword_raises "encode_inputs"
                (Extractor.encode_inputs_params image_t) keywords name v Hin Hunknown env)
      as (msg & ->).
    now exists msg.
  - apply bind_positional_raises in Hpos as (msg & ->). now exists msg.
Qed.

End EntryPointChecks.

Lemma encode_inputs_rejects_unknown_keywords_witness :
  In ("should_pad"%string, Extractor.VBool unit true)
     [("should_pad"%string, Extractor.VBool unit true);
      ("return_tensors"%string, Extractor.VReturnTensors unit RtNone)] /\
  exists msg,
    Extractor.call_encode_inputs unit (fun _ => Raise IndexError) true
      [Extractor.VImages unit [tt]; Extractor.VAnnotations unit None]
      [("should_pad"%string, Extractor.VBool unit true);
       ("return_tensors"%string, Extractor.VReturnTensors unit RtNone)]
    = Raise (TypeError msg).
Proof.
  assert (Hin : In ("should_pad"%string, Extractor.VBool unit true)
                  [("should_pad"%string, Extractor.VBool unit true);
                   ("return_tensors"%string, Extractor.VReturnTensors unit RtNone)])
    by (left; reflexivity).
  split; [exact Hin|].
  apply (encode_inputs_rejects_unknown_keywords (fun _ => Raise IndexError) true
           [Extractor.VImages unit [tt]; Extractor.VAnnotations unit None]
           _ "should_pad"%string (Extractor.VBool unit true) Hin).
  simpl. intros [H|[H|[H|[H|[]]]]]; discriminate.
Defined.


(** The default extractor on one 640 x 480 image with one annotation, with
    collaborators that hand their argument back. *)
Lemma transformations_keep_labels_witness :
  let target := {| ann_masks := Some {| shape := (1, 1, 1)%nat; data := [[[true]]] |};
                   ann_labels := Some [5]; ann_original_size := None |} in
  length [tt] = length [tt] /\
  option_map (map ann_labels)
    (Some [{| ann_masks := Some {| shape := (1, 1, 1)%nat; data := [[[true]]] |};
              ann_labels := Some [5]; ann_original_size := Some (640, 480) |}])
  = option_map (map ann_labels) (Some [target]).
Proof.
  intros target.
  apply (transformations_keep_labels
           (fun _ : unit => true) Ok (fun _ => (640, 480))
           (fun i _ => Ok i) (fun m _ _ => Ok m) (fun i _ _ => Ok i)
           {| do_resize := true; size := Some (Resizer.SizeInt 800); max_size := Some 1333;
              do_normalize := true;
              image_mean := [485 # 1000; 456 # 1000; 406 # 1000];
              image_std := [229 # 1000; 224 # 1000; 225 # 1000] |}
           [tt] [tt] (Some [target])).
  reflexivity.
Defined.
